(** * overload: first-match dispatch over same-named Python functions

    A shallow embedding of [src/overload/__init__.py]: the class
    [FunctionOverload] (its constructor, [add], [_dispatch] and [__call__]),
    the ledger accessor [_get_overload_registry] and the decorator
    [overload] with its inner [decorator].

    The module leans on a handful of host facilities: [isinstance],
    [callable], [inspect.signature] with [Signature.bind] and
    [BoundArguments.apply_defaults], [inspect.stack] with [f_locals], and
    the [typing] module.  The first part of the file models the fragment of
    the host these need; the second part is the module itself; the theorems
    follow. *)

From Stdlib Require Import ZArith.
From stdpp Require Import base strings list gmap.

Local Open Scope string_scope.
Local Open Scope list_scope.

(** ** Host: exceptions and results *)

Inductive exn_class :=
| TypeError
| AttributeError
| IndexError
| KeyError
| ValueError
| ZeroDivisionError
| SystemError
| UserError (cls_name : string).

Global Instance exn_class_eq_dec : EqDecision exn_class.
Proof. solve_decision. Defined.

(** An exception object: its class and its message. *)
Record exn := Exn { exn_type : exn_class; exn_msg : string }.

Global Instance exn_eq_dec : EqDecision exn.
Proof. solve_decision. Defined.

(** What evaluating an expression yields: a value, or a raised exception. *)
Inductive result (A : Type) :=
| Return (a : A)
| Raise (e : exn).
Arguments Return {A} a.
Arguments Raise {A} e.

(** [except TypeError] catches exactly the exceptions of class [TypeError]
    (exception classes are flat in this fragment). *)
Definition is_TypeError (e : exn) : bool := bool_decide (exn_type e = TypeError).

(** The error monad, for code that reads no state; stdpp's notation
    [x ← m; k] sequences it. *)
Global Instance result_ret : MRet result := fun A a => Return a.
Global Instance result_bind : MBind result := fun A B k m =>
  match m with
  | Return a => k a
  | Raise e => Raise e
  end.

(** ** Host: classes, annotations, values *)

(** A user-defined class: its name and, when it derives from another user
    class, that base; otherwise it derives from [object]. *)
Inductive user_class :=
| UserClass (cls_name : string)
| UserSubclass (cls_name : string) (base : user_class).

Global Instance user_class_eq_dec : EqDecision user_class.
Proof. solve_decision. Defined.

Fixpoint user_mro (u : user_class) : list user_class :=
  match u with
  | UserClass _ => [u]
  | UserSubclass _ b => u :: user_mro b
  end.

(** Classes: the builtins the fragment meets, and user classes. *)
Inductive pyclass :=
| c_object
| c_int
| c_bool
| c_float
| c_str
| c_NoneType
| c_tuple
| c_dict
| c_function
| c_FunctionOverload
| c_user (u : user_class)
| c_other (cls_name : string).   (* any other class, deriving from [object] *)

Global Instance pyclass_eq_dec : EqDecision pyclass.
Proof. solve_decision. Defined.

(** Method resolution order: the class, then its ancestors up to [object].
    [bool] derives from [int]. *)
Definition mro (c : pyclass) : list pyclass :=
  match c with
  | c_object => [c_object]
  | c_bool => [c_bool; c_int; c_object]
  | c_user u => (c_user <$> user_mro u) ++ [c_object]
  | _ => [c; c_object]
  end.

Definition issubclass (c d : pyclass) : bool := bool_decide (d ∈ mro c).

(** What may stand in a parameter's annotation slot. *)
Inductive annotation :=
| Parameter_empty                (* [inspect.Parameter.empty]: nothing written *)
| Any                            (* [typing.Any] *)
| Cls (c : pyclass)              (* a class *)
| NotAType (src : string).       (* an object that is no type, e.g. the source
                                    text kept by postponed evaluation *)

Global Instance annotation_eq_dec : EqDecision annotation.
Proof. solve_decision. Defined.

Inductive ParameterKind :=
| POSITIONAL_ONLY
| POSITIONAL_OR_KEYWORD
| VAR_POSITIONAL
| KEYWORD_ONLY
| VAR_KEYWORD.

Global Instance ParameterKind_eq_dec : EqDecision ParameterKind.
Proof. solve_decision. Defined.

(** Address of a [FunctionOverload] instance on the heap. *)
Definition loc := nat.

(** Values.  A float is carried as mantissa and binary exponent; an
    instance of a user class carries only its class.  A function object is
    what a [def] statement creates: the attributes the module reads
    ([__module__], [__qualname__], [__name__], [__code__.co_firstlineno]),
    its parameters as [inspect.signature] reports them, and an opaque code
    identity whose behaviour is given by the host ([invoke] below).

    Functions are not the only callables.  A builtin such as [len], a class
    such as [int], a [functools.partial], a [staticmethod] object or the
    wrapper that [functools.lru_cache] returns can be called as well, and
    each lacks some of what a function has.  Such an object is carried as
    what the module can ask of it: how an [AttributeError] describes it, the
    name of its class, each attribute if it has it, what
    [inspect.signature] makes of it (parameters, or the exception raised),
    and its code identity.  None of them has an attribute [add].  A frame
    object, which the local [frame] of [decorator] holds, is a value
    too. *)
Unset Elimination Schemes.
Inductive value :=
| VNone
| VBool (b : bool)
| VInt (n : Z)
| VFloat (mantissa exponent : Z)
| VStr (s : string)
| VTuple (items : list value)
| VDict (items : list (string * value))
| VObject (u : user_class)
| VFunction (f : function)
| VGroup (l : loc)
| VCallable (c : foreign)
| VFrame
with function :=
| Function (module_ qualname name_ : string) (firstlineno : Z)
           (params : list parameter) (code : nat)
with parameter :=
| Param (pname : string) (pkind : ParameterKind) (pdefault : option value)
        (pannotation : annotation)
with foreign :=
| Foreign (descr cls : string) (module_ qualname name_ : option string)
          (firstlineno : option Z) (sig : result (list parameter))
          (code : nat).
Set Elimination Schemes.

Definition __module__ (f : function) : string :=
  match f with Function m _ _ _ _ _ => m end.
Definition __qualname__ (f : function) : string :=
  match f with Function _ q _ _ _ _ => q end.
Definition __name__ (f : function) : string :=
  match f with Function _ _ n _ _ _ => n end.
Definition co_firstlineno (f : function) : Z :=
  match f with Function _ _ _ l _ _ => l end.
Definition __code__ (f : function) : nat :=
  match f with Function _ _ _ _ _ c => c end.

(** [inspect.signature(fn)]: the ordered parameters of a function. *)
Definition signature (f : function) : list parameter :=
  match f with Function _ _ _ _ ps _ => ps end.

Definition param_name (p : parameter) : string :=
  match p with Param n _ _ _ => n end.
Definition param_kind (p : parameter) : ParameterKind :=
  match p with Param _ k _ _ => k end.
Definition param_default (p : parameter) : option value :=
  match p with Param _ _ d _ => d end.
Definition param_annotation (p : parameter) : annotation :=
  match p with Param _ _ _ a => a end.

Definition foreign_descr (c : foreign) : string :=
  match c with Foreign d _ _ _ _ _ _ _ => d end.
Definition foreign_class (c : foreign) : string :=
  match c with Foreign _ k _ _ _ _ _ _ => k end.
Definition foreign_module (c : foreign) : option string :=
  match c with Foreign _ _ m _ _ _ _ _ => m end.
Definition foreign_qualname (c : foreign) : option string :=
  match c with Foreign _ _ _ q _ _ _ _ => q end.
Definition foreign_name (c : foreign) : option string :=
  match c with Foreign _ _ _ _ n _ _ _ => n end.
Definition foreign_firstlineno (c : foreign) : option Z :=
  match c with Foreign _ _ _ _ _ l _ _ => l end.
Definition foreign_signature (c : foreign) : result (list parameter) :=
  match c with Foreign _ _ _ _ _ _ s _ => s end.
Definition foreign_code (c : foreign) : nat :=
  match c with Foreign _ _ _ _ _ _ _ k => k end.

Definition type (v : value) : pyclass :=
  match v with
  | VNone => c_NoneType
  | VBool _ => c_bool
  | VInt _ => c_int
  | VFloat _ _ => c_float
  | VStr _ => c_str
  | VTuple _ => c_tuple
  | VDict _ => c_dict
  | VObject u => c_user u
  | VFunction _ => c_function
  | VGroup _ => c_FunctionOverload
  | VCallable c => c_other (foreign_class c)
  | VFrame => c_other "frame"
  end.

Definition user_class_name (u : user_class) : string :=
  match u with
  | UserClass n => n
  | UserSubclass n _ => n
  end.

(** [cls.__name__] *)
Definition class_name (c : pyclass) : string :=
  match c with
  | c_object => "object"
  | c_int => "int"
  | c_bool => "bool"
  | c_float => "float"
  | c_str => "str"
  | c_NoneType => "NoneType"
  | c_tuple => "tuple"
  | c_dict => "dict"
  | c_function => "function"
  | c_FunctionOverload => "FunctionOverload"
  | c_user u => user_class_name u
  | c_other n => n
  end.

(** [isinstance(value, typ)].  On a class it answers by the value's MRO.
    [typing.Any] refuses to take part in an instance check, and an object
    that is no type is refused as second argument: both raise [TypeError].
    [Parameter.empty] is an ordinary class without instances. *)
Definition isinstance (v : value) (typ : annotation) : result bool :=
  match typ with
  | Cls c => Return (issubclass (type v) c)
  | Any => Raise (Exn TypeError "typing.Any cannot be used with isinstance()")
  | NotAType _ =>
      Raise (Exn TypeError
        "isinstance() arg 2 must be a type, a tuple of types, or a union")
  | Parameter_empty => Return false
  end.

(** [callable(v)]: functions, [FunctionOverload] instances (the class
    defines [__call__]) and the other callables. *)
Definition callable (v : value) : bool :=
  match v with
  | VFunction _ | VGroup _ | VCallable _ => true
  | _ => false
  end.

(** Truthiness, as [or] tests it. *)
Definition truthy (v : value) : bool :=
  match v with
  | VNone => false
  | VBool b => b
  | VInt n => negb (n =? 0)%Z
  | VFloat m _ => negb (m =? 0)%Z
  | VStr s => negb (bool_decide (s = ""))
  | VTuple l => negb (bool_decide (length l = 0))
  | VDict l => negb (bool_decide (length l = 0))
  | _ => true
  end.

(** ** Host: ordered dictionaries with string keys

    Keyword arguments and [BoundArguments.arguments] are insertion-ordered
    dictionaries; order is observable, so they are association lists. *)

Definition odict := list (string * value).

Fixpoint dict_get (k : string) (d : odict) : option value :=
  match d with
  | [] => None
  | (k', v) :: d' => if decide (k' = k) then Some v else dict_get k d'
  end.

Definition dict_in (k : string) (d : odict) : bool :=
  match dict_get k d with Some _ => true | None => false end.

(** [d[k] = v]: overwrite in place, or append a new key. *)
Fixpoint dict_set (k : string) (v : value) (d : odict) : odict :=
  match d with
  | [] => [(k, v)]
  | (k', v') :: d' =>
      if decide (k' = k) then (k, v) :: d' else (k', v') :: dict_set k v d'
  end.

(** [d.pop(k)]: the value and the dictionary without the key. *)
Fixpoint dict_pop (k : string) (d : odict) : option (value * odict) :=
  match d with
  | [] => None
  | (k', v) :: d' =>
      if decide (k' = k) then Some (v, d')
      else match dict_pop k d' with
           | Some (w, d'') => Some (w, (k', v) :: d'')
           | None => None
           end
  end.

(** ** Host: [inspect.Signature.bind] and [BoundArguments.apply_defaults]

    Transcribed from the host's [inspect] module.  [bind] first walks the
    positional arguments against the parameters, then serves the remaining
    parameters from the keywords; every failure is a [TypeError]. *)

Definition repr (s : string) : string := "'" +:+ s +:+ "'".

(** The [while True] loop of [_bind].  It returns the arguments bound so
    far and the parameters left for the keyword phase ([parameters_ex]
    chained with the rest of the iterator). *)
Fixpoint bind_positional (parameters : list parameter) (args : list value)
    (kwargs : odict) (arguments : odict) : result (odict * list parameter) :=
  match args with
  | [] =>
      match parameters with
      | [] => Return (arguments, [])
      | param :: rest =>
          if decide (param_kind param = VAR_POSITIONAL) then Return (arguments, rest)
          else if dict_in (param_name param) kwargs then
            if decide (param_kind param = POSITIONAL_ONLY) then
              Raise (Exn TypeError (repr (param_name param) +:+
                " parameter is positional only, but was passed as a keyword"))
            else Return (arguments, param :: rest)
          else if bool_decide (param_kind param = VAR_KEYWORD)
                  || bool_decide (param_default param <> None) then
            Return (arguments, param :: rest)
          else
            Raise (Exn TypeError
              ("missing a required argument: " +:+ repr (param_name param)))
      end
  | arg_val :: arg_vals =>
      match parameters with
      | [] => Raise (Exn TypeError "too many positional arguments")
      | param :: rest =>
          if bool_decide (param_kind param = VAR_KEYWORD)
             || bool_decide (param_kind param = KEYWORD_ONLY) then
            Raise (Exn TypeError "too many positional arguments")
          else if decide (param_kind param = VAR_POSITIONAL) then
            Return (dict_set (param_name param) (VTuple (arg_val :: arg_vals))
                      arguments, rest)
          else if dict_in (param_name param) kwargs
                  && bool_decide (param_kind param <> POSITIONAL_ONLY) then
            Raise (Exn TypeError
              ("multiple values for argument " +:+ repr (param_name param)))
          else
            bind_positional rest arg_vals kwargs
              (dict_set (param_name param) arg_val arguments)
      end
  end.

(** The [for] loop of [_bind] over the remaining parameters.  It threads
    the keywords not yet consumed and the [**kwargs] parameter, if seen. *)
Fixpoint bind_keywords (parameters : list parameter) (kwargs : odict)
    (kwargs_param : option parameter) (arguments : odict)
    : result (odict * odict * option parameter) :=
  match parameters with
  | [] => Return (arguments, kwargs, kwargs_param)
  | param :: rest =>
      if decide (param_kind param = VAR_KEYWORD) then
        bind_keywords rest kwargs (Some param) arguments
      else if decide (param_kind param = VAR_POSITIONAL) then
        bind_keywords rest kwargs kwargs_param arguments
      else
        match dict_pop (param_name param) kwargs with
        | None =>
            if bool_decide (param_default param = None) then
              Raise (Exn TypeError
                ("missing a required argument: " +:+ repr (param_name param)))
            else bind_keywords rest kwargs kwargs_param arguments
        | Some (arg_val, kwargs') =>
            if decide (param_kind param = POSITIONAL_ONLY) then
              Raise (Exn TypeError (repr (param_name param) +:+
                " parameter is positional only, but was passed as a keyword"))
            else
              bind_keywords rest kwargs' kwargs_param
                (dict_set (param_name param) arg_val arguments)
        end
  end.

(** [sig.bind] applied to the call arguments: the [arguments] of the bound object. *)
Definition bind (sig : list parameter) (args : list value) (kwargs : odict)
    : result odict :=
  '(arguments, parameters) ← bind_positional sig args kwargs [];
  '(arguments, kwargs, kwargs_param) ←
      bind_keywords parameters kwargs None arguments;
  match kwargs with
  | [] => Return arguments
  | (k, _) :: _ =>
      match kwargs_param with
      | Some p => Return (dict_set (param_name p) (VDict kwargs) arguments)
      | None =>
          Raise (Exn TypeError
            ("got an unexpected keyword argument " +:+ repr k))
      end
  end.

(** [bound.apply_defaults()]: the arguments rebuilt in parameter order,
    with defaults, [()] for [*args] and [{}] for [**kwargs] filled in. *)
Fixpoint apply_defaults (sig : list parameter) (arguments : odict) : odict :=
  match sig with
  | [] => []
  | param :: rest =>
      match dict_get (param_name param) arguments with
      | Some v => (param_name param, v) :: apply_defaults rest arguments
      | None =>
          match param_default param with
          | Some val => (param_name param, val) :: apply_defaults rest arguments
          | None =>
              if decide (param_kind param = VAR_POSITIONAL) then
                (param_name param, VTuple []) :: apply_defaults rest arguments
              else if decide (param_kind param = VAR_KEYWORD) then
                (param_name param, VDict []) :: apply_defaults rest arguments
              else apply_defaults rest arguments
          end
      end
  end.

(** [sig.parameters[param]]: lookup by name, [KeyError] when absent. *)
Definition parameters_getitem (sig : list parameter) (param : string)
    : result parameter :=
  match find (fun p => bool_decide (param_name p = param)) sig with
  | Some p => Return p
  | None => Raise (Exn KeyError (repr param))
  end.

(** ** Host: attribute access and callables

    How the message of an [AttributeError] names the object it was looked
    up on: ['int' object] for an instance, and for the other callables the
    phrase they carry ([type object 'int'] for a class). *)
Definition describe (v : value) : string :=
  match v with
  | VCallable c => foreign_descr c
  | _ => repr (class_name (type v)) +:+ " object"
  end.

Definition no_attribute (descr attr : string) : exn :=
  Exn AttributeError (descr +:+ " has no attribute " +:+ repr attr).

(** What [add] is handed and [_dispatch] scans: a callable, which is a
    function or one of the other callables.  A function is a candidate
    without further ado. *)
Inductive candidate :=
| Def (f : function)
| Other (c : foreign).

Coercion Def : function >-> candidate.

(** A list or an option written with functions where candidates are
    expected is one of candidates. *)
Arguments Some {A} & a.
Arguments cons {A} & a l.

(** The candidate as a value, as the local [fn] holds it. *)
Definition value_of (fn : candidate) : value :=
  match fn with
  | Def f => VFunction f
  | Other c => VCallable c
  end.

(** [obj.attr] when the attribute may be missing. *)
Definition getattr {A} (descr attr : string) (a : option A) : result A :=
  match a with
  | Some x => Return x
  | None => Raise (no_attribute descr attr)
  end.

(** [fn.__module__], [fn.__qualname__], [fn.__name__] and
    [fn.__code__.co_firstlineno] on a candidate: a function has them all. *)
Definition attr___module__ (fn : candidate) : result string :=
  match fn with
  | Def f => Return (__module__ f)
  | Other c => getattr (foreign_descr c) "__module__" (foreign_module c)
  end.

Definition attr___qualname__ (fn : candidate) : result string :=
  match fn with
  | Def f => Return (__qualname__ f)
  | Other c => getattr (foreign_descr c) "__qualname__" (foreign_qualname c)
  end.

Definition attr___name__ (fn : candidate) : result string :=
  match fn with
  | Def f => Return (__name__ f)
  | Other c => getattr (foreign_descr c) "__name__" (foreign_name c)
  end.

Definition attr_co_firstlineno (fn : candidate) : result Z :=
  match fn with
  | Def f => Return (co_firstlineno f)
  | Other c => getattr (foreign_descr c) "__code__" (foreign_firstlineno c)
  end.

(** [inspect.signature(fn)] on a candidate: for some builtins and classes
    it raises [ValueError]. *)
Definition inspect_signature (fn : candidate) : result (list parameter) :=
  match fn with
  | Def f => Return (signature f)
  | Other c => foreign_signature c
  end.

(** The host binds the arguments of a call of a method declared as
    [def m(self, *args, **kwargs)] before its body runs.  Positional
    arguments and keywords all fit, except a keyword called [self], which
    clashes with the receiver. *)
Definition bind_receiver (method : string) (kwargs : odict) : result unit :=
  if dict_in "self" kwargs then
    Raise (Exn TypeError ("FunctionOverload." +:+ method +:+
                          "() got multiple values for argument 'self'"))
  else Return tt.

(** * The module [overload]

    ** Program state

    A [FunctionOverload] instance is a mutable object: the decorator finds
    it again through the caller's local bindings and appends to it.  So
    instances live on a heap and values refer to them by address. *)

Record FunctionOverload := {
  name : string;
  register : bool;
  _fns : list candidate;       (* Order is important. *)
}.

(** The ledger: module, then qualified name, then first line number. *)
Abbreviation registry := (gmap string (gmap string (gmap Z candidate))).

(** Which table the module global [_overload_registry] refers to once it
    is set: the one owned by [typing], or the module's own substitute. *)
Inductive registry_ref :=
| typing_table
| own_table.

Section Overload.

(** Whatever else a candidate's body may read or change, and the host's
    evaluation of a call of a candidate on it.  The bodies of the
    candidates stay within that world: they neither register functions nor
    change groups. *)
Context {W : Type}.
Variable invoke : candidate -> list value -> odict -> W -> result value * W.

Record State := {
  heap : list FunctionOverload;          (* instances, by address *)
  frames : list (gmap string value);     (* [f_locals] of the call stack,
                                            innermost frame first *)
  fast_locals : list (option (list string));
                        (* frame by frame: the names of the local variables
                           of the function the frame runs, or [None] for the
                           body of a module or of a class *)
  _overload_registry : option registry_ref;        (* the module global *)
  typing_overload_registry : option registry;
                        (* [typing._overload_registry], when the host has it *)
  own_registry : registry;               (* the substitute table *)
  warnings : list string;
  world : W;
  invoked : list (candidate * list value * odict);
                        (* record of the candidate calls made, oldest first *)
}.

Definition set_heap (h : list FunctionOverload) (s : State) : State :=
  {| heap := h; frames := frames s; fast_locals := fast_locals s;
     _overload_registry := _overload_registry s;
     typing_overload_registry := typing_overload_registry s;
     own_registry := own_registry s; warnings := warnings s;
     world := world s; invoked := invoked s |}.

(** The call stack: the frames and, beside them, their local variables. *)
Definition set_stack (fs : list (gmap string value))
    (ks : list (option (list string))) (s : State) : State :=
  {| heap := heap s; frames := fs; fast_locals := ks;
     _overload_registry := _overload_registry s;
     typing_overload_registry := typing_overload_registry s;
     own_registry := own_registry s; warnings := warnings s;
     world := world s; invoked := invoked s |}.

Definition set_frames (fs : list (gmap string value)) (s : State) : State :=
  set_stack fs (fast_locals s) s.

Definition set__overload_registry (r : option registry_ref) (s : State)
    : State :=
  {| heap := heap s; frames := frames s; fast_locals := fast_locals s;
     _overload_registry := r;
     typing_overload_registry := typing_overload_registry s;
     own_registry := own_registry s; warnings := warnings s;
     world := world s; invoked := invoked s |}.

Definition set_typing_overload_registry (t : option registry) (s : State)
    : State :=
  {| heap := heap s; frames := frames s; fast_locals := fast_locals s;
     _overload_registry := _overload_registry s;
     typing_overload_registry := t;
     own_registry := own_registry s; warnings := warnings s;
     world := world s; invoked := invoked s |}.

Definition set_own_registry (t : registry) (s : State) : State :=
  {| heap := heap s; frames := frames s; fast_locals := fast_locals s;
     _overload_registry := _overload_registry s;
     typing_overload_registry := typing_overload_registry s;
     own_registry := t; warnings := warnings s;
     world := world s; invoked := invoked s |}.

Definition set_warnings (ws : list string) (s : State) : State :=
  {| heap := heap s; frames := frames s; fast_locals := fast_locals s;
     _overload_registry := _overload_registry s;
     typing_overload_registry := typing_overload_registry s;
     own_registry := own_registry s; warnings := ws;
     world := world s; invoked := invoked s |}.

Definition set_world (w : W) (log : list (candidate * list value * odict))
    (s : State) : State :=
  {| heap := heap s; frames := frames s; fast_locals := fast_locals s;
     _overload_registry := _overload_registry s;
     typing_overload_registry := typing_overload_registry s;
     own_registry := own_registry s; warnings := warnings s;
     world := w; invoked := log |}.

(** ** The state-and-exception monad *)

Definition M (A : Type) : Type := State -> result A * State.

Global Instance M_ret : MRet M := fun A a s => (Return a, s).
Global Instance M_bind : MBind M := fun A B k m s =>
  match m s with
  | (Return a, s') => k a s'
  | (Raise e, s') => (Raise e, s')
  end.

Definition raise {A} (e : exn) : M A := fun s => (Raise e, s).
Definition lift {A} (r : result A) : M A := fun s => (r, s).
Definition gets {A} (f : State -> A) : M A := fun s => (Return (f s), s).
Definition modify (f : State -> State) : M unit := fun s => (Return tt, f s).

(** Read the instance at an address.  Addresses only come from
    allocation, so the failure branch is never taken by a run that starts
    from a state whose values point into the heap. *)
Definition deref (l : loc) : M FunctionOverload := fun s =>
  match heap s !! l with
  | Some g => (Return g, s)
  | None => (Raise (Exn SystemError "dangling reference"), s)
  end.

(** Run the body of a call of a function in a fresh frame, given the
    names of the function's local variables and what they are bound to;
    the frame is dropped when the call returns or raises. *)
Definition with_frame {A} (co_varnames : list string)
    (locals : gmap string value) (body : M A) : M A :=
  fun s =>
    let '(r, s') :=
      body (set_stack (locals :: frames s)
                      (Some co_varnames :: fast_locals s) s) in
    (r, set_stack (tail (frames s')) (tail (fast_locals s')) s').

(** ** [_get_overload_registry] *)

Definition _get_overload_registry : M registry_ref :=
  cached ← gets _overload_registry;
  match cached with
  | Some r => mret r
  | None =>
      impl ← gets typing_overload_registry;
      match impl with
      | Some _ =>
          (* [from typing import _overload_registry as impl] succeeded *)
          modify (set__overload_registry (Some typing_table));;
          mret typing_table
      | None =>
          (* [ImportError] *)
          modify (fun s => set_warnings (warnings s ++
            ["could not find `_overload_registry` in `typing` module;  using custom implementation"]) s);;
          modify (set_own_registry ∅);;
          modify (set__overload_registry (Some own_table));;
          mret own_table
      end
  end.

(** The table is a [defaultdict] of [defaultdict] of [dict]: looking up a
    missing module, or a missing qualified name under a module, makes the
    entry spring into being, empty.  [reg[m]] and [reg[m][q]]: *)
Definition registry_touch_module (m : string) (reg : registry) : registry :=
  <[m := default ∅ (reg !! m)]> reg.

Definition registry_touch_qualname (m q : string) (reg : registry)
    : registry :=
  let by_name := default ∅ (reg !! m) in
  <[m := <[q := default ∅ (by_name !! q)]> by_name]> reg.

(** [reg[m][q][line] = fn] *)
Definition registry_setitem (m q : string) (line : Z) (fn : candidate)
    (reg : registry) : registry :=
  let by_name := default ∅ (reg !! m) in
  let by_line := default ∅ (by_name !! q) in
  <[m := <[q := <[line := fn]> by_line]> by_name]> reg.

Definition registry_write (r : registry_ref) (f : registry -> registry)
    : M unit :=
  match r with
  | typing_table =>
      modify (fun s =>
        set_typing_overload_registry (f <$> typing_overload_registry s) s)
  | own_table => modify (fun s => set_own_registry (f (own_registry s)) s)
  end.

(** ** class [FunctionOverload] *)

(** [FunctionOverload(name, register)]: a new instance, at a new address. *)
Definition __init__ (name : string) (register : bool) : M loc :=
  l ← gets (fun s => length (heap s));
  modify (fun s => set_heap
    (heap s ++ [{| name := name; register := register; _fns := [] |}]) s);;
  mret l.

(** Line 54 is evaluated from left to right: [reg[fn.__module__]], then
    [...[fn.__qualname__]], then the index [fn.__code__.co_firstlineno],
    then the store.  An attribute that is missing raises where it is read,
    after the lookups before it have left their entries in the table. *)
Definition add (self : loc) (fn : candidate) : M loc :=
  g ← deref self;
  modify (fun s => set_heap
    (<[self := {| name := name g; register := register g;
                  _fns := _fns g ++ [fn] |}]> (heap s)) s);;
  (if register g then
     (* May help type checkers. *)
     reg ← _get_overload_registry;
     m ← lift (attr___module__ fn);
     registry_write reg (registry_touch_module m);;
     q ← lift (attr___qualname__ fn);
     registry_write reg (registry_touch_qualname m q);;
     line ← lift (attr_co_firstlineno fn);
     registry_write reg (registry_setitem m q line fn)
   else mret tt);;
  mret self.

(** Lines 70 to 81: the check of one bound argument against the
    annotation of its parameter.  The branches are in the order of the
    source; [isinstance] may itself raise. *)
Definition check_type_hint (typ : annotation) (value : value) : result unit :=
  if decide (typ = Parameter_empty) then Return tt
  else
    ok ← isinstance value typ;
    if ok : bool then Return tt
    else if decide (typ = Any) then Return tt
    else Raise (Exn TypeError "").

(** The loop over [bound.arguments.items()]. *)
Fixpoint check_type_hints (sig : list parameter) (arguments : odict)
    : result unit :=
  match arguments with
  | [] => Return tt
  | (param, value) :: rest =>
      p ← parameters_getitem sig param;
      check_type_hint (param_annotation p) value;;
      check_type_hints sig rest
  end.

(** Lines 65 to 81: the body of the [try] for one candidate. *)
Definition try_candidate (sig : list parameter) (args : list value)
    (kwargs : odict) : result unit :=
  (* Arguments should at least bind to the signature (right number of
     arguments). *)
  bound ← bind sig args kwargs;
  let bound := apply_defaults sig bound in
  (* Check type hints. *)
  check_type_hints sig bound.

(** The [for i, fn in enumerate(self._fns)] loop, from index [i] on.
    [signature(fn)] stands before the [try]: what it raises leaves the
    loop. *)
Fixpoint dispatch_from (i : nat) (fns : list candidate) (name : string)
    (args : list value) (kwargs : odict) : result nat :=
  match fns with
  | [] =>
      Raise (Exn TypeError ("no matching overload for function `" +:+ name
                            +:+ "` and call signature"))
  | fn :: rest =>
      match inspect_signature fn with
      | Raise e => Raise e
      | Return sig =>
          match try_candidate sig args kwargs with
          | Return _ => Return i
          | Raise e =>
              if is_TypeError e then dispatch_from (S i) rest name args kwargs
              else Raise e
          end
      end
  end.

(** [_dispatch] reads the instance and changes nothing. *)
Definition _dispatch (self : FunctionOverload) (args : list value)
    (kwargs : odict) : result nat :=
  bind_receiver "_dispatch" kwargs;;
  dispatch_from 0 (_fns self) (name self) args kwargs.

(** A call of a candidate: the host evaluates it on the world, and the
    call is recorded. *)
Definition call_function (fn : candidate) (args : list value)
    (kwargs : odict) : M value :=
  fun s =>
    let '(r, w) := invoke fn args kwargs (world s) in
    (r, set_world w (invoked s ++ [(fn, args, kwargs)]) s).

Definition __call__ (self : loc) (args : list value) (kwargs : odict)
    : M value :=
  lift (bind_receiver "__call__" kwargs);;
  g ← deref self;
  i ← lift (_dispatch g args kwargs);
  match _fns g !! i with
  | Some fn => call_function fn args kwargs
  | None => raise (Exn IndexError "list index out of range")
  end.

(** ** [overload] and its inner [decorator]

    What [overload] hands back: the dispatcher (the bare form, applied to
    the function itself), or the closure [decorator] holding the [arg] it
    was made with, which is [None] or a string. *)
Inductive overload_result :=
| Dispatcher (fn_overload : value)
| Decorator (arg : option string).

(** The free variable [arg] of [decorator], as a value. *)
Definition arg_value (arg : option string) : value :=
  match arg with
  | Some s => VStr s
  | None => VNone
  end.

(** [arg or fn.__name__]: the empty string is falsy, as [None] is. *)
Definition arg_or_name (arg : option string) (fn : candidate)
    : result string :=
  match arg with
  | Some s => if truthy (VStr s) then Return s else attr___name__ fn
  | None => attr___name__ fn
  end.

(** [frame.f_locals] is the namespace itself when the frame runs the body
    of a module or of a class.  For the frame of a function it is a
    dictionary that the interpreter (CPython up to 3.12) refreshes from the
    local variables each time it is asked for: what is stored in it under
    the name of a local variable is gone at the next look, what is stored
    under another name stays.  So a store sticks, or is lost: *)
Definition write_sticks (co_varnames : option (option (list string)))
    (name : string) : bool :=
  match co_varnames with
  | Some (Some names) => negb (bool_decide (name ∈ names))
  | _ => true
  end.

(** [frame.f_locals[name] = v] on the frame [scope_level] entries up. *)
Definition f_locals_setitem (scope_level : nat) (name : string) (v : value)
    : M unit :=
  modify (fun s =>
    if write_sticks (fast_locals s !! scope_level) name then
      set_frames (alter (fun f_locals => <[name := v]> f_locals)
                    scope_level (frames s)) s
    else s).

(** [fn_overload.add(fn)] on whatever the name was bound to.  Among the
    values of this fragment only a [FunctionOverload] has an [add]; on the
    others the lookup of the attribute raises. *)
Definition method_add (fn_overload : value) (fn : candidate) : M loc :=
  match fn_overload with
  | VGroup l => add l fn
  | v => raise (no_attribute (describe v) "add")
  end.

(** The local variables of [decorator] (its own and the free [arg]), and
    what its frame binds when line 130 looks at the frames: [fn_overload]
    is not yet bound, [name] and [frame] are if line 126 found a name. *)
Definition decorator_varnames : list string :=
  ["fn"; "scope_level"; "name"; "frame"; "fn_overload"; "arg"].

Definition decorator_locals (arg : option string) (fn : candidate)
    (scope_level : nat) : gmap string value :=
  let locals : gmap string value :=
    {[ "fn" := value_of fn;
       "scope_level" := VInt (Z.of_nat scope_level);
       "arg" := arg_value arg ]} in
  match arg_or_name arg fn with
  | Return name => <["name" := VStr name]> (<["frame" := VFrame]> locals)
  | Raise _ => locals
  end.

Definition decorator (arg : option string) (fn : candidate)
    (scope_level : nat) : M value :=
  with_frame decorator_varnames (decorator_locals arg fn scope_level) (
    name ← lift (arg_or_name arg fn);
    stack ← gets frames;
    match stack !! scope_level with
    | None => raise (Exn IndexError "list index out of range")
    | Some f_locals =>
        fn_overload ←
          match f_locals !! name with
          | Some v => mret v          (* Variable already defined in scope. *)
          | None => l ← __init__ name true; mret (VGroup l)
          end;
        method_add fn_overload fn;;
        f_locals_setitem scope_level name fn_overload;;
        mret fn_overload
    end).

(** Lines 119 to 122 and 142: the paths of [overload] for an argument
    that is not callable. *)
Definition overload_name (arg : value) : result overload_result :=
  match arg with
  | VNone => Return (Decorator None)
  | _ =>
      match isinstance arg (Cls c_str), arg with
      | Return true, VStr s => Return (Decorator (Some s))
      | _, _ => Raise (Exn TypeError "expected function name as argument")
      end
  end.

(** The local variables of [overload]; [decorator] is not yet bound when
    the bare form is served. *)
Definition overload_varnames : list string := ["arg"; "decorator"].

(** [overload(arg)], called from the innermost frame of the state.  In the
    bare form the inner call [overload()] yields the closure with [arg]
    unset, which is applied at once with [scope_level=2]: seen from
    [decorator], one frame of [overload] lies between it and the caller.  A
    [FunctionOverload] is callable and has no [__name__] to offer. *)
Definition overload (arg : value) : M overload_result :=
  with_frame overload_varnames {[ "arg" := arg ]} (
    if callable arg then
      inner ← with_frame overload_varnames {[ "arg" := VNone ]}
                (lift (overload_name VNone));
      match inner, arg with
      | Decorator a, VFunction fn =>
          fn_overload ← decorator a (Def fn) 2;
          mret (Dispatcher fn_overload)
      | Decorator a, VCallable c =>
          fn_overload ← decorator a (Other c) 2;
          mret (Dispatcher fn_overload)
      | _, _ => raise (no_attribute (describe arg) "__name__")
      end
    else lift (overload_name arg)).

(** ** Vocabulary of the properties *)

(** A candidate accepts a call when the arguments bind to its signature and
    every bound argument passes the check of its annotation. *)
Definition accepts (fn : function) (args : list value) (kwargs : odict)
    : bool :=
  match try_candidate (signature fn) args kwargs with
  | Return _ => true
  | Raise _ => false
  end.

Definition no_match (name : string) : exn :=
  Exn TypeError ("no matching overload for function `" +:+ name
                 +:+ "` and call signature").

(** What the scan makes of one candidate: it accepts the call or rejects
    it, unless [inspect.signature] raises on the candidate, which ends the
    scan with that exception.  On a function it is [accepts]. *)
Definition verdict (fn : candidate) (args : list value) (kwargs : odict)
    : result bool :=
  sig ← inspect_signature fn;
  Return (match try_candidate sig args kwargs with
          | Return _ => true
          | Raise _ => false
          end).

(** Every candidate of the list rejects the call. *)
Definition exhausts (fns : list candidate) (args : list value)
    (kwargs : odict) : bool :=
  forallb (fun fn => match verdict fn args kwargs with
                     | Return false => true
                     | _ => false
                     end) fns.

(** The exception of the host for a keyword called [self]. *)
Definition receiver_clash (method : string) : exn :=
  Exn TypeError ("FunctionOverload." +:+ method +:+
                 "() got multiple values for argument 'self'").

(** The name a function is registered under: [arg or fn.__name__]. *)
Definition name_or (arg : option string) (fn : function) : string :=
  match arg with
  | Some s => if truthy (VStr s) then s else __name__ fn
  | None => __name__ fn
  end.

(** The key line 54 files a candidate under, if the candidate has what it
    takes: [__module__], [__qualname__] and [__code__.co_firstlineno]. *)
Definition publication_key (fn : candidate) : result (string * string * Z) :=
  m ← attr___module__ fn;
  q ← attr___qualname__ fn;
  line ← attr_co_firstlineno fn;
  Return (m, q, line).

(** The keys of bound arguments are names of parameters. *)
Definition keys_in (sig : list parameter) (arguments : odict) : Prop :=
  forall k v, (k, v) ∈ arguments -> exists p, p ∈ sig /\ param_name p = k.

(** The signature with every annotation taken off. *)
Definition strip_annotation (p : parameter) : parameter :=
  Param (param_name p) (param_kind p) (param_default p) Parameter_empty.

Definition strip_annotations (sig : list parameter) : list parameter :=
  strip_annotation <$> sig.

(** The instance after [self._fns.append(fn)]. *)
Definition appended (g : FunctionOverload) (fn : candidate)
    : FunctionOverload :=
  {| name := name g; register := register g; _fns := _fns g ++ [fn] |}.

(** The table the module global refers to, if it is set. *)
Definition current_registry (s : State) : option registry :=
  match _overload_registry s with
  | Some typing_table => typing_overload_registry s
  | Some own_table => Some (own_registry s)
  | None => None
  end.

(** [reg[m][q][line]], on a table without the [defaultdict] magic. *)
Definition registry_getitem (m q : string) (line : Z) (reg : registry)
    : option candidate :=
  by_name ← reg !! m; by_line ← by_name !! q; by_line !! line.

(** If the global names the table of [typing], that table exists. *)
Definition registry_consistent (s : State) : Prop :=
  _overload_registry s = Some typing_table ->
  is_Some (typing_overload_registry s).

(** Candidate sequences only grow: whatever the module does, an instance stays where it is, keeps its
    name and flag, and keeps its candidates as a prefix of the new ones. *)
Definition heap_grows (h h' : list FunctionOverload) : Prop :=
  forall l g, h !! l = Some g ->
    exists g', h' !! l = Some g' /\ name g' = name g /\
               register g' = register g /\ _fns g `prefix_of` _fns g'.

(** A computation under which candidate sequences only grow. *)
Definition grows {A} (m : M A) : Prop :=
  forall s, heap_grows (heap s) (heap (snd (m s))).

(** The operations of the module, to be run one after another. *)
Inductive operation :=
| op_new (name : string) (register : bool)
| op_add (self : loc) (fn : candidate)
| op_dispatch (self : loc) (args : list value) (kwargs : odict)
| op_call (self : loc) (args : list value) (kwargs : odict)
| op_get_overload_registry
| op_overload (arg : value)
| op_decorator (arg : option string) (fn : candidate) (scope_level : nat).

Definition perform (s : State) (op : operation) : State :=
  match op with
  | op_new n r => snd (__init__ n r s)
  | op_add self fn => snd (add self fn s)
  | op_dispatch self args kwargs =>
      snd ((g ← deref self; lift (_dispatch g args kwargs)) s)
  | op_call self args kwargs => snd (__call__ self args kwargs s)
  | op_get_overload_registry => snd (_get_overload_registry s)
  | op_overload arg => snd (overload arg s)
  | op_decorator arg fn scope_level => snd (decorator arg fn scope_level s)
  end.

(** What a registration under [n] into the group at [l] leaves behind: the
    group extended in place, no new instance, and [n] bound to the group in
    the caller's frame. *)
Definition extended_in_place (s s' : State) (f_locals : gmap string value)
    (rest : list (gmap string value)) (n : string) (l : loc)
    (g : FunctionOverload) (fn : function) : Prop :=
  heap s' = <[l := appended g fn]> (heap s) /\
  heap s' !! l = Some (appended g fn) /\
  length (heap s') = length (heap s) /\
  (length (_fns g) = 1 -> length (_fns (appended g fn)) = 2) /\
  frames s' = <[n := VGroup l]> f_locals :: rest /\
  (<[n := VGroup l]> f_locals) !! n = Some (VGroup l).

(** A candidate whose outcome does not depend on the world and which
    leaves the world as it found it. *)
Definition pure (fn : candidate) : Prop :=
  forall args kwargs w w',
    invoke fn args kwargs w = (fst (invoke fn args kwargs w'), w).

(** The index [_dispatch] settles on, if any. *)
Definition selected (g : FunctionOverload) (args : list value)
    (kwargs : odict) : option nat :=
  match _dispatch g args kwargs with
  | Return i => Some i
  | Raise _ => None
  end.

(** What it is for a call of the group at [self] to be handed to the
    candidate [fn]: the outcome of the call is the outcome of the body of
    [fn] on the arguments as given, value or exception; the world is what
    the body made of it; and the call is on record, as the last one
    made. *)
Definition hands_to (s : State) (self : loc) (args : list value)
    (kwargs : odict) (fn : candidate) : Prop :=
  let r := __call__ self args kwargs s in
  fst r = fst (invoke fn args kwargs (world s)) /\
  world (snd r) = snd (invoke fn args kwargs (world s)) /\
  invoked (snd r) = invoked s ++ [(fn, args, kwargs)].

(** The table [_get_overload_registry] answers with, by content: the one
    the global names or, while the global is unset, the one the next call
    will settle on (the table of [typing], else a new empty one). *)
Definition ledger (s : State) : registry :=
  match _overload_registry s with
  | Some own_table => own_registry s
  | _ => default ∅ (typing_overload_registry s)
  end.

(** The body of [decorator] as the caller sees it: the same steps, with
    the frames counted from the caller's own (level 0) because the frame of
    [decorator] itself is left out. *)
Definition register_under (name : string) (fn : candidate) (level : nat)
    : M value :=
  stack ← gets frames;
  match stack !! level with
  | None => raise (Exn IndexError "list index out of range")
  | Some f_locals =>
      fn_overload ←
        match f_locals !! name with
        | Some v => mret v
        | None => l ← __init__ name true; mret (VGroup l)
        end;
      method_add fn_overload fn;;
      f_locals_setitem level name fn_overload;;
      mret fn_overload
  end.

(** What the ledger and the warnings may do between two states: a global
    that is set stays as it is and no warning is added; one that is unset
    either stays so, or gets set, with the one warning of line 28 at most. *)
Definition ledger_once (s s' : State) : Prop :=
  (forall r, _overload_registry s = Some r ->
     _overload_registry s' = Some r /\ warnings s' = warnings s) /\
  (_overload_registry s = None ->
     warnings s' = warnings s \/
     (_overload_registry s' = Some own_table /\
      exists w, warnings s' = warnings s ++ [w])) /\
  (registry_consistent s -> registry_consistent s').


(** A parameter that [apply_defaults] has a value for: bound by the call,
    or with a default, or variadic. *)
Definition covered (p : parameter) (arguments : odict) : Prop :=
  dict_in (param_name p) arguments = true \/
  param_default p <> None \/
  param_kind p = VAR_POSITIONAL \/ param_kind p = VAR_KEYWORD.




(** The outcome of the bare form, from the outcome of [decorator]. *)
Definition as_dispatcher (r : result value) : result overload_result :=
  match r with
  | Return v => Return (Dispatcher v)
  | Raise e => Raise e
  end.

(** A computation that treats the ledger so. *)
Definition settles_once {A} (m : M A) : Prop :=
  forall s, ledger_once s (snd (m s)).

(** The bare [@overload] on each definition of a list, in turn. *)
Definition define_all (fns : list function) (s : State) : State :=
  foldl (fun st fn => snd (overload (VFunction fn) st)) s fns.

End Overload.

Arguments State W : clear implicits.
Arguments M W A : clear implicits.

(** * Worked instances

    A small program to run the module on: the functions of a module
    [shapes], a host that evaluates them, and the state of the interpreter
    as the module body of [shapes] starts. *)

Module Shapes.

Definition positional (n : string) (a : annotation) : parameter :=
  Param n POSITIONAL_OR_KEYWORD None a.

(** [def area(w: int, h: int)], line 3, and [def area(r: float)], line 7. *)
Definition area_rect : function :=
  Function "shapes" "area" "area" 3
    [positional "w" (Cls c_int); positional "h" (Cls c_int)] 0.
Definition area_circle : function :=
  Function "shapes" "area" "area" 7 [positional "r" (Cls c_float)] 1.

(** [def greet(name: str)] and [def greet(name: str, loud: bool = False)]. *)
Definition greet_plain : function :=
  Function "shapes" "greet" "greet" 11 [positional "name" (Cls c_str)] 2.
Definition greet_loud : function :=
  Function "shapes" "greet" "greet" 15
    [positional "name" (Cls c_str);
     Param "loud" POSITIONAL_OR_KEYWORD (Some (VBool false)) (Cls c_bool)] 3.

(** [def show(x: Any)], [def show(x)] and [def show(x: int)]. *)
Definition show_any : function :=
  Function "shapes" "show" "show" 19 [positional "x" Any] 4.
Definition show_bare : function :=
  Function "shapes" "show" "show" 23 [positional "x" Parameter_empty] 5.
Definition show_int : function :=
  Function "shapes" "show" "show" 27 [positional "x" (Cls c_int)] 6.

(** [def check()], whose body raises a [TypeError] of its own. *)
Definition check : function := Function "shapes" "check" "check" 31 [] 7.

(** Two callables that are no functions: the builtin [len], which has no
    [__code__], and the class [int], which has none either and of which
    [inspect.signature] finds no signature. *)
Definition builtin_len : foreign :=
  Foreign "'builtin_function_or_method' object" "builtin_function_or_method"
    (Some "builtins") (Some "len") (Some "len") None
    (Return [Param "obj" POSITIONAL_ONLY None Parameter_empty]) 10.
Definition builtin_int : foreign :=
  Foreign "type object 'int'" "type"
    (Some "builtins") (Some "int") (Some "int") None
    (Raise (Exn ValueError "no signature found for builtin type <class 'int'>"))
    11.

Definition code_of (fn : candidate) : nat :=
  match fn with
  | Def f => __code__ f
  | Other c => foreign_code c
  end.

(** The host's evaluation of these bodies.  The world counts the calls
    that leave a mark: [area_rect] multiplies and leaves none, [check]
    raises, the others answer with a constant. *)
Definition invoke (fn : candidate) (args : list value) (kwargs : odict)
    (w : nat) : result value * nat :=
  match code_of fn with
  | 0 =>
      (match args with
       | [VInt a; VInt b] => Return (VInt (a * b))
       | _ => Return VNone
       end, w)
  | 1 => (Return (VStr "circle"), S w)
  | 2 => (Return (VStr "plain"), S w)
  | 3 => (Return (VStr "loud"), S w)
  | 7 =>
      (Raise (Exn TypeError
         "no matching overload for function `check` and call signature"),
       S w)
  | _ => (Return VNone, S w)
  end.

(** The interpreter about to run the body of the module: the frame of
    the module, with no bindings, no instance, the ledger of [typing]
    present and empty. *)
Definition start : State nat :=
  {| heap := []; frames := [∅]; fast_locals := [None];
     _overload_registry := None;
     typing_overload_registry := Some ∅; own_registry := ∅;
     warnings := []; world := 0; invoked := [] |}.

(** A state with one instance, holding the given candidates. *)
Definition with_group (n : string) (fns : list candidate) : State nat :=
  {| heap := [{| name := n; register := true; _fns := fns |}];
     frames := [{[ n := VGroup 0 ]}]; fast_locals := [None];
     _overload_registry := None;
     typing_overload_registry := Some ∅; own_registry := ∅;
     warnings := []; world := 0; invoked := [] |}.

(** [def opt(x: int = None)]: a default that is no instance of the
    annotation; [def total( *args: int)]: an annotated variadic. *)
Definition opt : function :=
  Function "shapes" "opt" "opt" 35
    [Param "x" POSITIONAL_OR_KEYWORD (Some VNone) (Cls c_int)] 8.

(** The module frame binds [area] to the integer 3, and [x] to 1. *)
Definition shadowed : State nat :=
  {| heap := []; frames := [{[ "area" := VInt 3; "x" := VInt 1 ]}];
     fast_locals := [None];
     _overload_registry := None; typing_overload_registry := Some ∅;
     own_registry := ∅; warnings := []; world := 0; invoked := [] |}.

(** A host whose [typing] has no ledger, with one empty group. *)
Definition bare_host : State nat :=
  {| heap := [{| name := "area"; register := true; _fns := [] |}];
     frames := [{[ "area" := VGroup 0 ]}]; fast_locals := [None];
     _overload_registry := None;
     typing_overload_registry := None; own_registry := ∅;
     warnings := []; world := 0; invoked := [] |}.

(** The state after [@overload def area(w: int, h: int)]. *)
Definition after_first : State nat :=
  snd (overload (VFunction area_rect) start).

End Shapes.

(** Case analysis on the tests that [bind] makes on a parameter. *)
Ltac split_conditions :=
  repeat match goal with
         | |- context [decide ?P] => destruct (decide P); simpl
         | |- context [bool_decide ?P] => destruct (bool_decide P); simpl
         | |- context [dict_in ?k ?d] => destruct (dict_in k d); simpl
         | |- context [dict_pop ?k ?d] =>
             destruct (dict_pop k d) as [[? ?]|]; simpl
         end.

(** Unfolding of the monad and of the methods written in it. *)
Ltac run_M :=
  unfold add, __init__, _get_overload_registry, registry_write, method_add,
    f_locals_setitem, mbind, M_bind, mret, M_ret, deref, gets, modify, raise,
    lift in *.

Section Properties.

Context {W : Type}.
Variable invoke : candidate -> list value -> odict -> W -> result value * W.
Implicit Types s st : State W.

(** * Properties

    ** The host's binding: every failure is a [TypeError] *)

Lemma bind_positional_raises parameters args kwargs arguments e :
  bind_positional parameters args kwargs arguments = Raise e ->
  is_TypeError e = true.
Proof.
  revert parameters arguments.
  induction args as [|arg_val arg_vals IH]; intros [|param rest] arguments;
    simpl; intros H; repeat case_match; simplify_eq; eauto.
Qed.

Lemma bind_keywords_raises parameters kwargs kwargs_param arguments e :
  bind_keywords parameters kwargs kwargs_param arguments = Raise e ->
  is_TypeError e = true.
Proof.
  revert kwargs kwargs_param arguments.
  induction parameters as [|param rest IH]; intros kwargs kwargs_param arguments;
    simpl; intros H; repeat case_match; simplify_eq; eauto.
Qed.

Lemma bind_raises sig args kwargs e :
  bind sig args kwargs = Raise e -> is_TypeError e = true.
Proof.
  unfold bind, mbind, result_bind. intros H.
  destruct (bind_positional sig args kwargs []) as [[arguments ps]|e1] eqn:E1.
  - destruct (bind_keywords ps kwargs None arguments)
      as [[[arguments' kw] kp]|e2] eqn:E2.
    + repeat case_match; simplify_eq; done.
    + simplify_eq. eauto using bind_keywords_raises.
  - simplify_eq. eauto using bind_positional_raises.
Qed.

(** ** The arguments after [apply_defaults] are keyed by parameter names *)

Lemma apply_defaults_keys sig arguments k v :
  (k, v) ∈ apply_defaults sig arguments ->
  exists p, p ∈ sig /\ param_name p = k.
Proof.
  induction sig as [|param rest IH]; simpl; intros H.
  - by apply elem_of_nil in H.
  - assert (Hrest : (k, v) ∈ apply_defaults rest arguments ->
                    exists p, p ∈ param :: rest /\ param_name p = k).
    { intros Hin. destruct (IH Hin) as (p & Hp & Hn).
      exists p. split; [by right | done]. }
    repeat case_match; try (apply elem_of_cons in H as [H|H]);
      simplify_eq; eauto; exists param; split; (by left) || done.
Qed.

Lemma parameters_getitem_elem sig p :
  p ∈ sig ->
  exists p', parameters_getitem sig (param_name p) = Return p' /\ p' ∈ sig.
Proof.
  intros Hin. unfold parameters_getitem.
  destruct (find _ sig) as [p'|] eqn:E.
  - exists p'. split; [done|].
    apply find_some in E as [E _]. by apply list_elem_of_In.
  - apply list_elem_of_In in Hin.
    pose proof (find_none _ _ E p Hin) as Hn. simpl in Hn.
    by rewrite bool_decide_eq_false in Hn.
Qed.

Lemma parameters_getitem_Return sig k p :
  parameters_getitem sig k = Return p -> p ∈ sig /\ param_name p = k.
Proof.
  unfold parameters_getitem. destruct (find _ sig) as [p'|] eqn:E; [|done].
  intros [= ->]. apply find_some in E as [E1 E2].
  split; [by apply list_elem_of_In|]. by apply bool_decide_eq_true in E2.
Qed.

(** ** The type check of one argument *)

Lemma check_type_hint_raises typ v e :
  check_type_hint typ v = Raise e -> e = Exn TypeError (exn_msg e) /\
  is_TypeError e = true.
Proof.
  unfold check_type_hint, mbind, result_bind, isinstance.
  intros H. repeat case_match; simplify_eq; done.
Qed.

Lemma check_type_hint_unit typ v u : check_type_hint typ v = Return u -> u = tt.
Proof. by destruct u. Qed.

Lemma check_type_hints_raises sig arguments e :
  keys_in sig arguments ->
  check_type_hints sig arguments = Raise e -> is_TypeError e = true.
Proof.
  induction arguments as [|[k v] rest IH]; simpl; intros Hk H; [done|].
  destruct (Hk k v) as (p & Hp & Hn); [by left|].
  destruct (parameters_getitem_elem sig p Hp) as (p' & Hget & _).
  rewrite Hn in Hget. rewrite Hget in H. simpl in H.
  unfold mbind, result_bind in H.
  destruct (check_type_hint (param_annotation p') v) eqn:E.
  - apply IH; [|done]. intros k' v' Hin. apply (Hk k' v'). by right.
  - simplify_eq. by apply check_type_hint_raises in E as [_ E].
Qed.

(** What the [try] of one candidate can raise is caught by its [except]. *)
Lemma try_candidate_raises sig args kwargs e :
  try_candidate sig args kwargs = Raise e -> is_TypeError e = true.
Proof.
  unfold try_candidate, mbind, result_bind.
  destruct (bind sig args kwargs) as [bound|e1] eqn:E.
  - apply check_type_hints_raises. intros k v. apply apply_defaults_keys.
  - intros [= ->]. eauto using bind_raises.
Qed.

(** ** The scan *)

Lemma verdict_Def (fn : function) args kwargs :
  verdict fn args kwargs = Return (accepts fn args kwargs).
Proof. done. Qed.

Lemma dispatch_from_cons_verdict i (fn : candidate) rest name args kwargs :
  dispatch_from i (fn :: rest) name args kwargs =
  match verdict fn args kwargs with
  | Return true => Return i
  | Return false => dispatch_from (S i) rest name args kwargs
  | Raise e => Raise e
  end.
Proof.
  simpl. unfold verdict, mbind, result_bind.
  destruct (inspect_signature fn) as [sig|e]; [|done].
  destruct (try_candidate sig args kwargs) as [u|e] eqn:E; [done|].
  by rewrite (try_candidate_raises _ _ _ _ E).
Qed.

Lemma dispatch_from_cons i (fn : function) rest name args kwargs :
  dispatch_from i (fn :: rest) name args kwargs =
  if accepts fn args kwargs then Return i
  else dispatch_from (S i) rest name args kwargs.
Proof.
  rewrite dispatch_from_cons_verdict, verdict_Def.
  by destruct (accepts fn args kwargs).
Qed.

Lemma dispatch_from_Return i fns name args kwargs j :
  dispatch_from i fns name args kwargs = Return j <->
  exists n fn, j = i + n /\ fns !! n = Some fn /\
    verdict fn args kwargs = Return true /\
    forall m fm, m < n -> fns !! m = Some fm ->
                 verdict fm args kwargs = Return false.
Proof.
  revert i. induction fns as [|fn rest IH]; intros i.
  - simpl. split; [done|]. by intros (n & fn & _ & H & _).
  - rewrite dispatch_from_cons_verdict.
    destruct (verdict fn args kwargs) as [[]|e] eqn:Hv.
    + split.
      * intros [= <-]. exists 0, fn. repeat split; [lia|done|lia].
      * intros (n & fn' & -> & Hn & Hv' & Hmin).
        destruct n as [|n]; [f_equal; lia|].
        specialize (Hmin 0 fn ltac:(lia) eq_refl). congruence.
    + rewrite IH. split.
      * intros (n & fn' & -> & Hn & Hv' & Hmin).
        exists (S n), fn'. repeat split; [lia|done|done|].
        intros [|m] fm Hlt Hm; simpl in Hm; [congruence|].
        apply (Hmin m); [lia|done].
      * intros (n & fn' & -> & Hn & Hv' & Hmin).
        destruct n as [|n]; simpl in Hn; [congruence|].
        exists n, fn'. repeat split; [lia|done|done|].
        intros m fm Hlt Hm. apply (Hmin (S m)); [lia|done].
    + split; [done|].
      intros (n & fn' & -> & Hn & Hv' & Hmin).
      destruct n as [|n]; simpl in Hn; [congruence|].
      specialize (Hmin 0 fn ltac:(lia) eq_refl). congruence.
Qed.

Lemma exhausts_true fns args kwargs :
  exhausts fns args kwargs = true <->
  forall fn, fn ∈ fns -> verdict fn args kwargs = Return false.
Proof.
  unfold exhausts. rewrite forallb_forall. split.
  - intros H fn Hin. apply list_elem_of_In in Hin. specialize (H fn Hin).
    by destruct (verdict fn args kwargs) as [[]|].
  - intros H fn Hin. apply list_elem_of_In in Hin. by rewrite (H fn Hin).
Qed.

Lemma exhausts_cons fn fns args kwargs :
  exhausts (fn :: fns) args kwargs =
  match verdict fn args kwargs with
  | Return false => exhausts fns args kwargs
  | _ => false
  end.
Proof. simpl. by destruct (verdict fn args kwargs) as [[]|]. Qed.

(** When the scan raises, either every candidate rejected the call and
    the exception is the dispatch failure, or it is what
    [inspect.signature] raised on the first candidate that was not
    rejected. *)
Lemma dispatch_from_Raise i fns name args kwargs e :
  dispatch_from i fns name args kwargs = Raise e <->
  (exhausts fns args kwargs = true /\ e = no_match name) \/
  (exists n fn, fns !! n = Some fn /\ verdict fn args kwargs = Raise e /\
     forall m fm, m < n -> fns !! m = Some fm ->
                  verdict fm args kwargs = Return false).
Proof.
  revert i. induction fns as [|fn rest IH]; intros i.
  - simpl. split.
    + intros [= <-]. by left.
    + intros [[_ ->]|(n & fn & H & _)]; done.
  - rewrite dispatch_from_cons_verdict, exhausts_cons.
    destruct (verdict fn args kwargs) as [[]|e'] eqn:Hv.
    + split; [done|]. intros [[? _]|(n & fn' & Hn & Hv' & Hmin)]; [done|].
      destruct n as [|n]; simpl in Hn; [congruence|].
      specialize (Hmin 0 fn ltac:(lia) eq_refl). congruence.
    + rewrite IH. split.
      * intros [H|(n & fn' & Hn & Hv' & Hmin)]; [by left|]. right.
        exists (S n), fn'. split_and!; try done.
        intros [|m] fm Hlt Hm; simpl in Hm; [congruence|].
        apply (Hmin m); [lia|done].
      * intros [H|(n & fn' & Hn & Hv' & Hmin)]; [by left|]. right.
        destruct n as [|n]; simpl in Hn; [congruence|].
        exists n, fn'. split_and!; try done.
        intros m fm Hlt Hm. apply (Hmin (S m)); [lia|done].
    + split.
      * intros [= <-]. right. exists 0, fn. split_and!; try done. lia.
      * intros [[? _]|(n & fn' & Hn & Hv' & Hmin)]; [done|].
        destruct n as [|n]; simpl in Hn; [congruence|].
        specialize (Hmin 0 fn ltac:(lia) eq_refl). congruence.
Qed.

(** ** Binding does not look at annotations *)

Lemma bind_positional_strip parameters args kwargs arguments :
  bind_positional (strip_annotations parameters) args kwargs arguments =
  match bind_positional parameters args kwargs arguments with
  | Return (arguments', rest) => Return (arguments', strip_annotations rest)
  | Raise e => Raise e
  end.
Proof.
  revert parameters arguments.
  induction args as [|arg_val arg_vals IH];
    intros [|[n k d a] rest] arguments; simpl; try done;
    split_conditions; try done; apply IH.
Qed.

Lemma bind_keywords_strip parameters kwargs kwargs_param arguments :
  bind_keywords (strip_annotations parameters) kwargs
    (option_map strip_annotation kwargs_param) arguments =
  match bind_keywords parameters kwargs kwargs_param arguments with
  | Return (arguments', kwargs', kp) =>
      Return (arguments', kwargs', option_map strip_annotation kp)
  | Raise e => Raise e
  end.
Proof.
  revert kwargs kwargs_param arguments.
  induction parameters as [|[n k d a] rest IH];
    intros kwargs kwargs_param arguments; simpl; [done|].
  split_conditions; try done;
    first [apply (IH _ (Some (Param n k d a))) | apply IH].
Qed.

Lemma bind_strip_annotations sig args kwargs :
  bind (strip_annotations sig) args kwargs = bind sig args kwargs.
Proof.
  unfold bind, mbind, result_bind. rewrite bind_positional_strip.
  destruct (bind_positional sig args kwargs []) as [[arguments ps]|e]; [|done].
  pose proof (bind_keywords_strip ps kwargs None arguments) as Hk.
  simpl in Hk. rewrite Hk.
  destruct (bind_keywords ps kwargs None arguments)
    as [[[arguments' kw] kp]|e]; [|done].
  simpl. destruct kw as [|[k v] kw]; [done|]. by destruct kp as [[]|].
Qed.

(** ** Evaluating [__call__] *)

Lemma bind_receiver_eq method kwargs :
  bind_receiver method kwargs =
  if dict_in "self" kwargs then Raise (receiver_clash method) else Return tt.
Proof. done. Qed.

Lemma _dispatch_unfold g args kwargs :
  _dispatch g args kwargs =
  if dict_in "self" kwargs then Raise (receiver_clash "_dispatch")
  else dispatch_from 0 (_fns g) (name g) args kwargs.
Proof.
  unfold _dispatch, mbind, result_bind. rewrite bind_receiver_eq.
  by destruct (dict_in "self" kwargs).
Qed.

Lemma call_function_eq (fn : candidate) args kwargs s :
  call_function invoke fn args kwargs s =
  (fst (invoke fn args kwargs (world s)),
   set_world (snd (invoke fn args kwargs (world s)))
             (invoked s ++ [(fn, args, kwargs)]) s).
Proof. unfold call_function. by destruct (invoke fn args kwargs (world s)). Qed.

Lemma __call___unfold s self g args kwargs :
  heap s !! self = Some g ->
  __call__ invoke self args kwargs s =
  if dict_in "self" kwargs then (Raise (receiver_clash "__call__"), s)
  else
    match _dispatch g args kwargs with
    | Return i =>
        match _fns g !! i with
        | Some fn => call_function invoke fn args kwargs s
        | None => (Raise (Exn IndexError "list index out of range"), s)
        end
    | Raise e => (Raise e, s)
    end.
Proof.
  intros Hg. unfold __call__, mbind, M_bind, deref, lift, raise.
  rewrite bind_receiver_eq.
  destruct (dict_in "self" kwargs); [done|].
  rewrite Hg. destruct (_dispatch g args kwargs) as [i|e]; [|done].
  by destruct (_fns g !! i).
Qed.

Lemma _dispatch_Return g args kwargs i :
  _dispatch g args kwargs = Return i <->
  dict_in "self" kwargs = false /\
  exists fn, _fns g !! i = Some fn /\ verdict fn args kwargs = Return true /\
    forall j fj, j < i -> _fns g !! j = Some fj ->
                 verdict fj args kwargs = Return false.
Proof.
  rewrite _dispatch_unfold.
  destruct (dict_in "self" kwargs); [split; [done|by intros [? _]]|].
  rewrite dispatch_from_Return. split.
  - intros (n & fn & -> & H). split; [done|]. by exists fn.
  - intros (_ & fn & H). by exists i, fn.
Qed.

(** A call that [_dispatch] settles at [i] is handed to the candidate at
    [i]. *)
Lemma __call___selected s self g args kwargs i fn :
  heap s !! self = Some g ->
  _dispatch g args kwargs = Return i -> _fns g !! i = Some fn ->
  hands_to invoke s self args kwargs fn.
Proof.
  intros Hg Hd Hi. unfold hands_to. rewrite (__call___unfold _ _ _ _ _ Hg).
  pose proof Hd as Hd'. apply _dispatch_Return in Hd' as [-> _].
  by rewrite Hd, Hi, call_function_eq.
Qed.




(** ** The type checks of a candidate *)

Lemma check_type_hints_Return sig arguments :
  check_type_hints sig arguments = Return tt <->
  forall param v, (param, v) ∈ arguments ->
    exists p, parameters_getitem sig param = Return p /\
              check_type_hint (param_annotation p) v = Return tt.
Proof.
  induction arguments as [|[k w] rest IH]; simpl.
  - split; [|done]. intros _ param v H. by apply elem_of_nil in H.
  - unfold mbind, result_bind.
    destruct (parameters_getitem sig k) as [p|e] eqn:Hget.
    + destruct (check_type_hint (param_annotation p) w) as [[]|e] eqn:Hc.
      * rewrite IH. split.
        -- intros H param v [[= -> ->]|Hin]%elem_of_cons; eauto.
        -- intros H param v Hin. apply H. by right.
      * split; [done|]. intros H.
        destruct (H k w ltac:(by left)) as (p' & Hp' & Hc'). congruence.
    + split; [done|]. intros H.
      destruct (H k w ltac:(by left)) as (p' & Hp' & _). congruence.
Qed.

(** One bound argument that fails its check is enough to reject. *)
Lemma accepts_false_by_argument fn args kwargs bound param v p :
  bind (signature fn) args kwargs = Return bound ->
  (param, v) ∈ apply_defaults (signature fn) bound ->
  parameters_getitem (signature fn) param = Return p ->
  check_type_hint (param_annotation p) v <> Return tt ->
  accepts fn args kwargs = false.
Proof.
  intros Hb Hin Hget Hc. unfold accepts, try_candidate, mbind, result_bind.
  rewrite Hb.
  destruct (check_type_hints _ _) as [[]|e] eqn:E; [|done].
  rewrite check_type_hints_Return in E.
  destruct (E param v Hin) as (p' & Hp' & Hc'). congruence.
Qed.

Lemma accepts_false_by_bind fn args kwargs e :
  bind (strip_annotations (signature fn)) args kwargs = Raise e ->
  accepts fn args kwargs = false.
Proof.
  rewrite bind_strip_annotations. intros Hb.
  unfold accepts, try_candidate, mbind, result_bind. by rewrite Hb.
Qed.

(** C6.  A parameter without annotation accepts whatever value is bound to
    it: its check returns without raising.  Hence a candidate none of whose
    parameters is annotated accepts every call that binds. *)
Theorem unannotated_parameter_accepts (v : value) (fn : function)
    (args : list value) (kwargs : odict) :
  check_type_hint Parameter_empty v = Return tt /\
  ((forall p, p ∈ signature fn -> param_annotation p = Parameter_empty) ->
   forall bound, bind (signature fn) args kwargs = Return bound ->
   accepts fn args kwargs = true).
Proof.
  split; [done|]. intros Hall bound Hb.
  unfold accepts, try_candidate, mbind, result_bind. rewrite Hb.
  assert (check_type_hints (signature fn)
            (apply_defaults (signature fn) bound) = Return tt) as ->; [|done].
  apply check_type_hints_Return. intros param w Hin.
  destruct (apply_defaults_keys _ _ _ _ Hin) as (p & Hp & <-).
  destruct (parameters_getitem_elem _ p Hp) as (p' & Hget & Hp').
  exists p'. split; [done|]. by rewrite (Hall p' Hp').
Qed.

(** C5.  Against a class the check lets through exactly the values that
    [isinstance] answers [True] for.  A bound argument it answers [False]
    for makes the check raise the [TypeError] that the [except] of the
    same candidate swallows: the candidate is not accepted, nothing is
    raised on its account, and the scan goes on with the candidates after
    it; when none is left, that is the dispatch failure. *)
Theorem concrete_type_only_instances (c : pyclass) (v : value) (fn : function)
    (args : list value) (kwargs bound : odict) (param : string)
    (p : parameter) :
  bind (signature fn) args kwargs = Return bound ->
  (param, v) ∈ apply_defaults (signature fn) bound ->
  parameters_getitem (signature fn) param = Return p ->
  param_annotation p = Cls c ->
  (check_type_hint (Cls c) v = Return tt <->
   isinstance v (Cls c) = Return true) /\
  (isinstance v (Cls c) = Return false ->
   check_type_hint (Cls c) v = Raise (Exn TypeError "") /\
   accepts fn args kwargs = false /\
   (forall i rest name,
      dispatch_from i (fn :: rest) name args kwargs =
      dispatch_from (S i) rest name args kwargs) /\
   (forall i name,
      dispatch_from i [fn] name args kwargs = Raise (no_match name))).
Proof.
  intros Hb Hin Hget Hann.
  assert (Hiff : check_type_hint (Cls c) v = Return tt <->
                 isinstance v (Cls c) = Return true).
  { unfold check_type_hint, isinstance, mbind, result_bind. simpl.
    destruct (issubclass (type v) c); split; done. }
  split; [done|]. intros Hinst.
  assert (Hc : check_type_hint (Cls c) v = Raise (Exn TypeError "")).
  { unfold check_type_hint, mbind, result_bind. rewrite Hinst. done. }
  assert (Hacc : accepts fn args kwargs = false).
  { eapply accepts_false_by_argument; eauto. rewrite Hann. by rewrite Hc. }
  split_and!; try done.
  - intros i rest name. by rewrite dispatch_from_cons, Hacc.
  - intros i name. by rewrite dispatch_from_cons, Hacc.
Qed.

Lemma verdict_false_by_bind (fn : candidate) sig args kwargs e :
  inspect_signature fn = Return sig ->
  bind (strip_annotations sig) args kwargs = Raise e ->
  verdict fn args kwargs = Return false.
Proof.
  rewrite bind_strip_annotations. intros Hs Hb.
  unfold verdict, try_candidate, mbind, result_bind. by rewrite Hs, Hb.
Qed.

Lemma verdict_has_signature (fn : candidate) sig args kwargs :
  inspect_signature fn = Return sig ->
  exists b, verdict fn args kwargs = Return b.
Proof.
  intros Hs. unfold verdict, mbind, result_bind. rewrite Hs. by eexists.
Qed.

(** The scan of a group all of whose candidates have a signature raises
    nothing but the dispatch failure. *)
Lemma _dispatch_exhaustion g args kwargs e :
  dict_in "self" kwargs = false ->
  (forall fn, fn ∈ _fns g -> exists sig, inspect_signature fn = Return sig) ->
  _dispatch g args kwargs = Raise e ->
  e = no_match (name g) /\
  forall fn, fn ∈ _fns g -> verdict fn args kwargs = Return false.
Proof.
  intros Hself Hsig Hd. rewrite _dispatch_unfold, Hself in Hd.
  apply dispatch_from_Raise in Hd as [[Hall ->]|(n & fn & Hn & Hv & _)].
  - split; [done|]. by apply exhausts_true.
  - destruct (Hsig fn (list_elem_of_lookup_2 _ _ _ Hn)) as [sig Hs].
    destruct (verdict_has_signature fn sig args kwargs Hs) as [b Hb].
    congruence.
Qed.

(** C3, as amended.  The call carries no keyword [self], and every
    candidate of the group has a signature and either fails to bind the
    call (which its arguments and the parameters' names, kinds and defaults
    decide, whatever the annotations) or is rejected by its type checks.
    Then [__call__] raises the [TypeError] whose message names the group,
    and the state is left as it was: in particular no candidate was
    invoked. *)
Theorem no_candidate_dispatch_failure s self g args kwargs :
  heap s !! self = Some g ->
  dict_in "self" kwargs = false ->
  (forall fn, fn ∈ _fns g ->
     exists sig, inspect_signature fn = Return sig /\
       ((exists e, bind (strip_annotations sig) args kwargs = Raise e)
        \/ verdict fn args kwargs = Return false)) ->
  __call__ invoke self args kwargs s =
    (Raise (Exn TypeError ("no matching overload for function `" +:+ name g
                           +:+ "` and call signature")), s) /\
  invoked (snd (__call__ invoke self args kwargs s)) = invoked s.
Proof.
  intros Hg Hself Hall.
  assert (Hd : _dispatch g args kwargs = Raise (no_match (name g))).
  { rewrite _dispatch_unfold, Hself. apply dispatch_from_Raise. left.
    split; [|done]. apply exhausts_true. intros fn Hin.
    destruct (Hall fn Hin) as (sig & Hs & [[e He]|?]); [|done].
    eauto using verdict_false_by_bind. }
  rewrite (__call___unfold _ _ _ _ _ Hg), Hself, Hd. done.
Qed.

(** C4, as amended.  For a call without a keyword [self] to a group whose
    candidates all have a signature, the scan surfaces one thing only, the
    exhaustion of the candidates, and it does so as a [TypeError] naming
    the group; a candidate it rejects leaves no trace.  When a candidate
    is chosen, the call is handed to it: the outcome of [__call__] is the
    outcome of that candidate's body, value or exception, as the host
    produced it. *)
Theorem candidate_outcome_unchanged s self g args kwargs :
  heap s !! self = Some g ->
  dict_in "self" kwargs = false ->
  (forall fn, fn ∈ _fns g -> exists sig, inspect_signature fn = Return sig) ->
  (exists i fn,
      _dispatch g args kwargs = Return i /\ _fns g !! i = Some fn /\
      verdict fn args kwargs = Return true /\
      hands_to invoke s self args kwargs fn)
  \/ (_dispatch g args kwargs = Raise (no_match (name g)) /\
      (forall fn, fn ∈ _fns g -> verdict fn args kwargs = Return false) /\
      __call__ invoke self args kwargs s = (Raise (no_match (name g)), s)).
Proof.
  intros Hg Hself Hsig.
  destruct (_dispatch g args kwargs) as [i|e] eqn:Hd.
  - left. pose proof Hd as Hd'.
    apply _dispatch_Return in Hd' as (_ & fn & Hi & Hacc & _).
    exists i, fn. split_and!; try done. by eapply __call___selected.
  - right.
    destruct (_dispatch_exhaustion g args kwargs e Hself Hsig Hd) as [-> Hall].
    split_and!; try done.
    by rewrite (__call___unfold _ _ _ _ _ Hg), Hself, Hd.
Qed.

(** ** Frames *)

Lemma set_stack_same s : set_stack (frames s) (fast_locals s) s = s.
Proof. by destruct s. Qed.

Lemma set_frames_same s : set_frames (frames s) s = s.
Proof. by destruct s. Qed.

Lemma with_frame_lift {A} co_varnames locals (r : result A) s :
  with_frame co_varnames locals (lift r) s = (r, s).
Proof. unfold with_frame, lift. by destruct s. Qed.

Lemma overload_name_not_callable arg s :
  callable arg = false -> overload arg s = (overload_name arg, s).
Proof. intros Hc. unfold overload. rewrite Hc. apply with_frame_lift. Qed.

(** Only strings are instances of [str]. *)
Lemma isinstance_str v :
  isinstance v (Cls c_str) = Return true <-> exists txt, v = VStr txt.
Proof.
  split; [|by intros [txt ->]].
  unfold isinstance, issubclass. intros [= H%bool_decide_eq_true].
  destruct v; simpl in H; try (by eexists);
    repeat (apply elem_of_cons in H as [H|H]; [done|]);
    try (by apply elem_of_nil in H).
  apply elem_of_app in H as [H|H].
  - apply list_elem_of_fmap in H as (u' & ? & _). done.
  - apply elem_of_cons in H as [H|H]; [done|]. by apply elem_of_nil in H.
Qed.

(** C7, as amended.  An argument that is not callable, not [None] and not
    a string makes [overload] raise the [TypeError] of line 122, and
    nothing is registered. *)
Theorem overload_rejects_other_arguments (arg : value) s :
  callable arg = false ->
  arg <> VNone ->
  isinstance arg (Cls c_str) = Return false ->
  overload arg s =
    (Raise (Exn TypeError "expected function name as argument"), s).
Proof.
  intros Hc Hn Hs. rewrite (overload_name_not_callable _ _ Hc).
  f_equal. unfold overload_name. rewrite Hs. by destruct arg.
Qed.

(** ** [add] *)

Lemma registry_getitem_setitem m q line fn reg :
  registry_getitem m q line (registry_setitem m q line fn reg) = Some fn.
Proof.
  unfold registry_getitem, registry_setitem.
  rewrite lookup_insert_eq. simpl. rewrite lookup_insert_eq. simpl.
  by rewrite lookup_insert_eq.
Qed.

(** The store of line 54 after the two lookups before it is the store. *)
Lemma registry_setitem_touch m q line fn reg :
  registry_setitem m q line fn
    (registry_touch_qualname m q (registry_touch_module m reg)) =
  registry_setitem m q line fn reg.
Proof.
  unfold registry_setitem, registry_touch_qualname, registry_touch_module.
  rewrite !lookup_insert_eq. simpl. rewrite !lookup_insert_eq. simpl.
  by rewrite !insert_insert_eq.
Qed.

Lemma publication_key_Def (fn : function) :
  publication_key fn =
  Return (__module__ fn, __qualname__ fn, co_firstlineno fn).
Proof. done. Qed.

Lemma publication_key_Raise fn e :
  publication_key fn = Raise e -> exn_type e = AttributeError.
Proof.
  destruct fn as [f|[d k m q n l sg cd]]; [done|].
  unfold publication_key, mbind, result_bind. simpl.
  destruct m, q, l; simpl; intros [= <-]; done.
Qed.

Lemma add_run s self g fn :
  heap s !! self = Some g ->
  exists r s', add self fn s = (r, s') /\
    heap s' = <[self := appended g fn]> (heap s) /\
    frames s' = frames s /\ fast_locals s' = fast_locals s /\
    world s' = world s /\ invoked s' = invoked s /\
    (register g = false ->
     r = Return self /\
     _overload_registry s' = _overload_registry s /\
     typing_overload_registry s' = typing_overload_registry s /\
     own_registry s' = own_registry s /\ warnings s' = warnings s) /\
    (register g = true ->
     match publication_key fn with
     | Return (m, q, line) =>
         r = Return self /\
         (registry_consistent s ->
          ledger s' = registry_setitem m q line fn (ledger s) /\
          current_registry s' = Some (ledger s') /\
          registry_consistent s')
     | Raise e => r = Raise e
     end).
Proof.
  intros Hg. destruct s as [h f ks glob t o w wd iv]. simpl in Hg.
  unfold add, _get_overload_registry, registry_write, mbind, M_bind, mret,
    M_ret, deref, gets, modify, lift. simpl.
  rewrite Hg. simpl. fold (appended g fn).
  unfold publication_key, ledger, current_registry, registry_consistent,
    mbind, result_bind. simpl.
  destruct (register g) eqn:Hreg; simpl.
  2:{ eexists _, _. split_and!; try done. }
  destruct (attr___module__ fn) as [m|e1]; simpl.
  2:{ destruct glob as [[]|]; simpl; [| |destruct t; simpl];
        eexists _, _; split_and!; done. }
  destruct (attr___qualname__ fn) as [q|e2]; simpl.
  2:{ destruct glob as [[]|]; simpl; [| |destruct t; simpl];
        eexists _, _; split_and!; done. }
  destruct (attr_co_firstlineno fn) as [line|e3]; simpl.
  2:{ destruct glob as [[]|]; simpl; [| |destruct t; simpl];
        eexists _, _; split_and!; done. }
  destruct glob as [[]|]; simpl.
  - eexists _, _. split_and!; try done. intros _. split; [done|].
    intros Hwf. destruct (Hwf eq_refl) as [t' ->]. simpl.
    rewrite registry_setitem_touch. split_and!; eauto.
  - eexists _, _. split_and!; try done. intros _. split; [done|].
    intros _. rewrite registry_setitem_touch. split_and!; eauto; done.
  - destruct t as [t'|]; simpl.
    + eexists _, _. split_and!; try done. intros _. split; [done|].
      intros _. rewrite registry_setitem_touch. split_and!; eauto.
    + eexists _, _. split_and!; try done. intros _. split; [done|].
      intros _. rewrite registry_setitem_touch. split_and!; eauto; done.
Qed.

(** On a function [add] cannot fail. *)
Lemma add_spec s self g (fn : function) :
  heap s !! self = Some g ->
  exists s', add self fn s = (Return self, s') /\
    heap s' = <[self := appended g fn]> (heap s) /\
    frames s' = frames s /\ fast_locals s' = fast_locals s /\
    world s' = world s /\ invoked s' = invoked s /\
    (register g = false ->
     _overload_registry s' = _overload_registry s /\
     typing_overload_registry s' = typing_overload_registry s /\
     own_registry s' = own_registry s /\ warnings s' = warnings s) /\
    (register g = true -> registry_consistent s ->
     exists reg, current_registry s' = Some reg /\
       registry_getitem (__module__ fn) (__qualname__ fn) (co_firstlineno fn)
         reg = Some fn).
Proof.
  intros Hg.
  destruct (add_run s self g fn Hg)
    as (r & s' & Hadd & Hheap & Hfr & Hks & Hw & Hiv & Hoff & Hon).
  assert (Hr : r = Return self).
  { destruct (register g) eqn:Hreg.
    - specialize (Hon eq_refl). rewrite publication_key_Def in Hon.
      by destruct Hon.
    - by destruct (Hoff eq_refl). }
  subst r. exists s'. split_and!; try done.
  - intros Hreg. by destruct (Hoff Hreg) as (_ & ? & ? & ? & ?).
  - intros Hreg Hwf. specialize (Hon Hreg).
    rewrite publication_key_Def in Hon. destruct Hon as [_ Hon].
    destruct (Hon Hwf) as (Hl & Hc & _).
    exists (ledger s'). split; [done|].
    rewrite Hl. apply registry_getitem_setitem.
Qed.

Lemma heap_grows_refl h : heap_grows h h.
Proof. intros l g Hg. by exists g. Qed.

Lemma heap_grows_trans h1 h2 h3 :
  heap_grows h1 h2 -> heap_grows h2 h3 -> heap_grows h1 h3.
Proof.
  intros H12 H23 l g Hg.
  destruct (H12 l g Hg) as (g2 & Hg2 & Hn2 & Hr2 & Hp2).
  destruct (H23 l g2 Hg2) as (g3 & Hg3 & Hn3 & Hr3 & Hp3).
  exists g3. split_and!; [done|congruence|congruence|by etrans].
Qed.

Lemma heap_grows_alloc h g : heap_grows h (h ++ [g]).
Proof.
  intros l g0 Hg0. exists g0. split_and!; try done.
  by apply lookup_app_l_Some.
Qed.

Lemma heap_grows_append h self g fn :
  h !! self = Some g -> heap_grows h (<[self := appended g fn]> h).
Proof.
  intros Hg l g0 Hg0. destruct (decide (l = self)) as [->|Hne].
  - exists (appended g fn). simplify_eq. split_and!; try done.
    + apply list_lookup_insert_eq. by eapply lookup_lt_Some.
    + by apply prefix_app_r.
  - exists g0. by rewrite list_lookup_insert_ne.
Qed.

Lemma grows_bind {A B} (m : M W A) (k : A -> M W B) :
  grows m -> (forall a, grows (k a)) -> grows (m ≫= k).
Proof.
  intros Hm Hk s. unfold mbind, M_bind.
  specialize (Hm s). destruct (m s) as [[a|e] s1]; simpl in *; [|done].
  eapply heap_grows_trans; [done|]. apply Hk.
Qed.

Lemma grows_with_frame {A} co_varnames locals (m : M W A) :
  grows m -> grows (with_frame co_varnames locals m).
Proof.
  intros Hm s. unfold with_frame.
  specialize (Hm (set_stack (locals :: frames s)
                            (Some co_varnames :: fast_locals s) s)).
  by destruct (m _) as [r s1].
Qed.

Lemma grows_add self fn : grows (add (W:=W) self fn).
Proof.
  intros s. destruct (heap s !! self) as [g|] eqn:Hg.
  - destruct (add_run s self g fn Hg) as (r & s' & Hadd & Hheap & _).
    rewrite Hadd. simpl. rewrite Hheap. by apply heap_grows_append.
  - unfold add, mbind, M_bind, deref. rewrite Hg. apply heap_grows_refl.
Qed.

Lemma grows___init__ n r : grows (__init__ (W:=W) n r).
Proof. intros s. apply heap_grows_alloc. Qed.

Lemma heap___call__ self args kwargs s :
  heap (snd (__call__ invoke self args kwargs s)) = heap s.
Proof.
  unfold __call__, mbind, M_bind, deref, lift, raise.
  destruct (bind_receiver "__call__" kwargs); [|done].
  destruct (heap s !! self) as [g|]; [|done].
  destruct (_dispatch g args kwargs) as [i|e]; [|done].
  destruct (_fns g !! i) as [fn|]; [|done].
  by rewrite call_function_eq.
Qed.

Lemma grows___call__ self args kwargs :
  grows (__call__ invoke self args kwargs).
Proof. intros s. rewrite heap___call__. apply heap_grows_refl. Qed.

Lemma grows__get_overload_registry : grows (_get_overload_registry (W:=W)).
Proof.
  intros s. unfold _get_overload_registry, mbind, M_bind, mret, M_ret, gets,
    modify.
  simpl. destruct (_overload_registry s); simpl; [apply heap_grows_refl|].
  destruct (typing_overload_registry s); apply heap_grows_refl.
Qed.

Lemma grows_same_heap {A} (m : M W A) :
  (forall s, heap (snd (m s)) = heap s) -> grows m.
Proof. intros H s. rewrite H. apply heap_grows_refl. Qed.

Lemma grows_method_add v fn : grows (method_add (W:=W) v fn).
Proof. destruct v; try (by apply grows_same_heap). apply grows_add. Qed.

Lemma grows_f_locals_setitem lvl n v :
  grows (f_locals_setitem (W:=W) lvl n v).
Proof.
  apply grows_same_heap. intros s. unfold f_locals_setitem, modify. simpl.
  by destruct (write_sticks _ _).
Qed.

Lemma grows_decorator arg fn scope_level :
  grows (decorator (W:=W) arg fn scope_level).
Proof.
  apply grows_with_frame, grows_bind.
  { apply grows_same_heap. intros s. unfold lift. by destruct (arg_or_name _ _). }
  intros n. apply grows_bind; [by apply grows_same_heap|].
  intros stack. destruct (stack !! scope_level) as [f_locals|];
    [|by apply grows_same_heap].
  apply grows_bind.
  - destruct (f_locals !! n) as [v|]; [by apply grows_same_heap|].
    apply grows_bind; [apply grows___init__|].
    intros l. by apply grows_same_heap.
  - intros v. apply grows_bind; [apply grows_method_add|].
    intros _. apply grows_bind; [apply grows_f_locals_setitem|].
    intros; by apply grows_same_heap.
Qed.

Lemma grows_overload arg : grows (overload (W:=W) arg).
Proof.
  apply grows_with_frame. destruct (callable arg).
  - apply grows_bind.
    + apply grows_same_heap. intros s. by rewrite with_frame_lift.
    + intros [v|a]; [by apply grows_same_heap|].
      destruct arg; try (by apply grows_same_heap);
        (apply grows_bind; [apply grows_decorator|]);
        intros v; by apply grows_same_heap.
  - by apply grows_same_heap.
Qed.

Lemma perform_grows s op : heap_grows (heap s) (heap (perform invoke s op)).
Proof.
  destruct op; simpl.
  - apply grows___init__.
  - apply grows_add.
  - apply (grows_bind (deref self)); intros; by apply grows_same_heap;
      intros s'; unfold deref; destruct (heap s' !! self).
  - apply grows___call__.
  - apply grows__get_overload_registry.
  - apply grows_overload.
  - apply grows_decorator.
Qed.

Lemma perform_all_grows ops s :
  heap_grows (heap s) (heap (foldl (perform invoke) s ops)).
Proof.
  revert s. induction ops as [|op ops IH]; intros s; simpl.
  - apply heap_grows_refl.
  - eapply heap_grows_trans; [apply perform_grows | apply IH].
Qed.

(** C9, as amended.  [add] appends the candidate to the group, whatever
    the candidate and also when it was among the candidates already.
    Without [register] it returns [self] and does not touch the ledger.
    With [register], if the candidate has a module, a qualified name and a
    first line (a function has), [add] returns [self] and the candidate is
    found in the ledger under them; if the candidate lacks one of them,
    [add] raises the [AttributeError] of the missing attribute, after the
    append.  And whatever sequence of the module's operations runs, the
    candidates an instance had remain a prefix of those it has
    afterwards. *)
Theorem add_appends_returns_self s self g fn :
  heap s !! self = Some g ->
  (exists r s', add self fn s = (r, s') /\
     heap s' !! self = Some (appended g fn) /\
     _fns (appended g fn) = _fns g ++ [fn] /\
     (register g = false ->
      r = Return self /\
      _overload_registry s' = _overload_registry s /\
      typing_overload_registry s' = typing_overload_registry s /\
      own_registry s' = own_registry s) /\
     (register g = true ->
      forall m q line, publication_key fn = Return (m, q, line) ->
      r = Return self /\
      (registry_consistent s ->
       exists reg, current_registry s' = Some reg /\
         registry_getitem m q line reg = Some fn)) /\
     (register g = true ->
      forall e, publication_key fn = Raise e ->
      r = Raise e /\ exn_type e = AttributeError)) /\
  (forall f : function,
     publication_key f =
     Return (__module__ f, __qualname__ f, co_firstlineno f)) /\
  (forall ops st, heap_grows (heap st) (heap (foldl (perform invoke) st ops))).
Proof.
  intros Hg. split_and!; [|done|intros; apply perform_all_grows].
  destruct (add_run s self g fn Hg)
    as (r & s' & Hadd & Hheap & _ & _ & _ & _ & Hoff & Hon).
  exists r, s'. split_and!; try done.
  - rewrite Hheap. apply list_lookup_insert_eq. by eapply lookup_lt_Some.
  - intros Hr. destruct (Hoff Hr) as (? & ? & ? & ? & _). done.
  - intros Hr m q line Hkey. specialize (Hon Hr). rewrite Hkey in Hon.
    destruct Hon as [-> Hon]. split; [done|]. intros Hwf.
    destruct (Hon Hwf) as (Hl & Hc & _).
    exists (ledger s'). split; [done|].
    rewrite Hl. apply registry_getitem_setitem.
  - intros Hr e Hkey. specialize (Hon Hr). rewrite Hkey in Hon.
    split; [done|]. by eapply publication_key_Raise.
Qed.

(** ** The call stack does not matter to [add] and [__init__] *)

Lemma set_stack_set_stack fs ks fs' ks' s :
  set_stack fs ks (set_stack fs' ks' s) = set_stack fs ks s.
Proof. by destruct s. Qed.

Lemma add_set_stack fs ks self fn s :
  add self fn (set_stack fs ks s) =
  let '(r, s') := add self fn s in (r, set_stack fs ks s').
Proof.
  destruct s as [h f k0 g t o w wd iv]. run_M. simpl.
  destruct (h !! self) as [grp|]; [|done]. simpl.
  destruct (register grp); [|done].
  destruct g as [[]|]; simpl; [| |destruct t; simpl];
    (destruct (attr___module__ fn); simpl; [|done]);
    (destruct (attr___qualname__ fn); simpl; [|done]);
    (destruct (attr_co_firstlineno fn); simpl; done).
Qed.

Lemma stack_add self fn s :
  frames (snd (add self fn s)) = frames s /\
  fast_locals (snd (add self fn s)) = fast_locals s.
Proof.
  destruct (heap s !! self) as [g|] eqn:Hg.
  - destruct (add_run s self g fn Hg) as (r & s' & Hadd & _ & Hfr & Hks & _).
    by rewrite Hadd.
  - unfold add, mbind, M_bind, deref. by rewrite Hg.
Qed.

Lemma method_add_set_stack fs ks v fn s :
  method_add v fn (set_stack fs ks s) =
  let '(r, s') := method_add v fn s in (r, set_stack fs ks s').
Proof. destruct v; try done. apply add_set_stack. Qed.

Lemma stack_method_add v fn s :
  frames (snd (method_add v fn s)) = frames s /\
  fast_locals (snd (method_add v fn s)) = fast_locals s.
Proof. destruct v; try done. apply stack_add. Qed.

Lemma __init___eq n r s :
  __init__ n r s =
  (Return (length (heap s)),
   set_heap (heap s ++ [{| name := n; register := r; _fns := [] |}]) s).
Proof. done. Qed.

Lemma arg_or_name_Def arg (fn : function) :
  arg_or_name arg fn = Return (name_or arg fn).
Proof. destruct arg as [txt|]; [|done]. simpl. by destruct (negb _). Qed.

(** ** [decorator], seen from the caller *)

(** [register_under], step by step. *)
Lemma register_under_unfold n fn lvl s :
  register_under n fn lvl s =
  match frames s !! lvl with
  | None => (Raise (Exn IndexError "list index out of range"), s)
  | Some f_locals =>
      let '(v, s0) :=
        match f_locals !! n with
        | Some v => (v, s)
        | None =>
            (VGroup (length (heap s)),
             set_heap (heap s ++ [{| name := n; register := true;
                                     _fns := [] |}]) s)
        end in
      match method_add v fn s0 with
      | (Return _, s1) =>
          (Return v,
           if write_sticks (fast_locals s1 !! lvl) n then
             set_frames (alter (fun f => <[n := v]> f) lvl (frames s1)) s1
           else s1)
      | (Raise e, s1) => (Raise e, s1)
      end
  end.
Proof.
  unfold register_under, f_locals_setitem, mbind, M_bind, gets, raise, mret,
    M_ret, modify. simpl.
  destruct (frames s !! lvl) as [f_locals|]; [|done].
  destruct (f_locals !! n) as [v|].
  - by destruct (method_add v fn s) as [[l|e] s1].
  - unfold __init__, mbind, M_bind, gets, modify, mret, M_ret. simpl.
    by destruct (add _ fn _) as [[l|e] s1].
Qed.

(** One more frame on top, one more level to count. *)
Lemma register_under_push o k n fn lvl s :
  register_under n fn (S lvl)
    (set_stack (o :: frames s) (k :: fast_locals s) s) =
  let '(r, s') := register_under n fn lvl s in
  (r, set_stack (o :: frames s') (k :: fast_locals s') s').
Proof.
  rewrite !register_under_unfold. simpl.
  destruct (frames s !! lvl) as [f_locals|] eqn:Hf; [|done].
  destruct (f_locals !! n) as [v|] eqn:Hn.
  - rewrite method_add_set_stack.
    destruct (stack_method_add v fn s) as [Hfr Hks].
    destruct (method_add v fn s) as [[l|e] s1]; simpl in *.
    + rewrite Hfr, Hks.
      destruct (write_sticks (fast_locals s !! lvl) n); simpl;
        by rewrite ?Hfr, ?Hks.
    + by rewrite Hfr, Hks.
  - set (s0 := set_heap _ s).
    change (set_heap _ (set_stack ?fs ?ks s)) with (set_stack fs ks s0).
    rewrite method_add_set_stack.
    destruct (stack_method_add (VGroup (length (heap s))) fn s0) as [Hfr Hks].
    destruct (method_add _ fn s0) as [[l|e] s1]; simpl in *.
    + rewrite Hfr, Hks.
      destruct (write_sticks (fast_locals s !! lvl) n); simpl;
        by rewrite ?Hfr, ?Hks.
    + by rewrite Hfr, Hks.
Qed.

(** [decorator] with [scope_level] at least one acts on the caller's
    frames as [register_under] one level lower, under the name that line
    126 finds. *)
Lemma decorator_register_under_name arg fn lvl s :
  decorator arg fn (S lvl) s =
  match arg_or_name arg fn with
  | Return n => register_under n fn lvl s
  | Raise e => (Raise e, s)
  end.
Proof.
  unfold decorator, with_frame.
  change (mbind ?k (lift (arg_or_name arg fn)) ?s0)
    with (match arg_or_name arg fn with
          | Return n => register_under n fn (S lvl) s0
          | Raise e => (Raise e, s0)
          end).
  destruct (arg_or_name arg fn) as [n|e].
  - rewrite register_under_push.
    destruct (register_under n fn lvl s) as [r s']. simpl.
    by rewrite set_stack_set_stack, set_stack_same.
  - by destruct s.
Qed.

Lemma decorator_register_under arg (fn : function) lvl s :
  decorator arg fn (S lvl) s = register_under (name_or arg fn) fn lvl s.
Proof. by rewrite decorator_register_under_name, arg_or_name_Def. Qed.

(** The bare form on a callable that [overload] hands on to [decorator]. *)
Lemma overload_candidate (fn : candidate) s :
  overload (value_of fn) s =
  let '(r, s') :=
    decorator None fn 2
      (set_stack ({[ "arg" := value_of fn ]} :: frames s)
                 (Some overload_varnames :: fast_locals s) s) in
  (as_dispatcher r,
   set_stack (tail (frames s')) (tail (fast_locals s')) s').
Proof.
  unfold overload.
  assert (callable (value_of fn) = true) as -> by (by destruct fn).
  unfold with_frame at 1.
  unfold mbind at 1, M_bind at 1. rewrite with_frame_lift. simpl.
  unfold mbind, M_bind, mret, M_ret.
  destruct fn as [f|c]; simpl;
    by destruct (decorator None _ 2 _) as [[v|e] s'].
Qed.

(** The bare form, seen from the caller. *)
Lemma overload_candidate_register_under (fn : candidate) s :
  overload (value_of fn) s =
  match attr___name__ fn with
  | Return n =>
      let '(r, s') := register_under n fn 0 s in (as_dispatcher r, s')
  | Raise e => (Raise e, s)
  end.
Proof.
  rewrite overload_candidate, decorator_register_under_name. simpl.
  destruct (attr___name__ fn) as [n|e].
  - rewrite register_under_push.
    destruct (register_under n fn 0 s) as [[v|e] s']; simpl;
      by rewrite set_stack_set_stack, set_stack_same.
  - by destruct s.
Qed.

Lemma overload_function_register_under (fn : function) s :
  overload (VFunction fn) s =
  let '(r, s') := register_under (__name__ fn) fn 0 s in (as_dispatcher r, s').
Proof. apply (overload_candidate_register_under fn). Qed.

(** A store of what is there already changes nothing. *)
Lemma alter_insert_id (fs : list (gmap string value)) lvl f_locals n v :
  fs !! lvl = Some f_locals -> f_locals !! n = Some v ->
  alter (fun f => <[n := v]> f) lvl fs = fs.
Proof.
  intros Hf Hn. apply list_eq. intros i.
  destruct (decide (i = lvl)) as [->|Hne].
  - rewrite list_lookup_alter_eq, Hf. simpl. by rewrite insert_id.
  - by rewrite list_lookup_alter_ne.
Qed.

(** ** The decorator meets an existing group *)

Lemma register_under_existing s n (fn : function) lvl f_locals l g :
  frames s !! lvl = Some f_locals ->
  f_locals !! n = Some (VGroup l) ->
  heap s !! l = Some g ->
  exists s', register_under n fn lvl s = (Return (VGroup l), s') /\
    heap s' = <[l := appended g fn]> (heap s) /\
    frames s' = frames s /\ fast_locals s' = fast_locals s.
Proof.
  intros Hf Hn Hg. rewrite register_under_unfold, Hf, Hn.
  destruct (add_spec s l g fn Hg) as (s1 & Hadd & Hheap & Hfr & Hks & _).
  unfold method_add. rewrite Hadd. eexists. split; [reflexivity|].
  destruct (write_sticks (fast_locals s1 !! lvl) n); simpl; [|done].
  split_and!; try done.
  rewrite Hfr. by eapply alter_insert_id.
Qed.

Lemma extended_in_place_intro s s' f_locals rest n l g (fn : function) :
  frames s = f_locals :: rest ->
  f_locals !! n = Some (VGroup l) ->
  heap s !! l = Some g ->
  heap s' = <[l := appended g fn]> (heap s) ->
  frames s' = frames s ->
  extended_in_place s s' f_locals rest n l g fn.
Proof.
  intros Hfr Hn Hg Hheap Hfr'. unfold extended_in_place.
  rewrite Hheap, Hfr', Hfr, (insert_id _ _ _ Hn). split_and!; try done.
  - apply list_lookup_insert_eq. by eapply lookup_lt_Some.
  - by rewrite length_insert.
  - intros H1. simpl. rewrite length_app, H1. done.
Qed.

Lemma bare_overload_existing s f_locals rest l g (fn : function) :
  frames s = f_locals :: rest ->
  f_locals !! __name__ fn = Some (VGroup l) ->
  heap s !! l = Some g ->
  exists s', overload (VFunction fn) s = (Return (Dispatcher (VGroup l)), s')
    /\ extended_in_place s s' f_locals rest (__name__ fn) l g fn.
Proof.
  intros Hfr Hn Hg. rewrite overload_function_register_under.
  assert (Hf0 : frames s !! 0 = Some f_locals) by (by rewrite Hfr).
  destruct (register_under_existing s _ fn 0 f_locals l g Hf0 Hn Hg)
    as (s' & Hr & Hheap & Hfr' & _).
  rewrite Hr. exists s'. split; [done|]. by apply extended_in_place_intro.
Qed.

Lemma named_overload_existing s f_locals rest l g (fn : function) argv arg :
  frames s = f_locals :: rest ->
  f_locals !! name_or arg fn = Some (VGroup l) ->
  heap s !! l = Some g ->
  overload_name argv = Return (Decorator arg) ->
  overload argv s = (Return (Decorator arg), s) /\
  exists s', decorator arg fn 1 s = (Return (VGroup l), s')
    /\ extended_in_place s s' f_locals rest (name_or arg fn) l g fn.
Proof.
  intros Hfr Hn Hg Hov. split.
  - assert (Hc : callable argv = false).
    { destruct argv; try done; simpl in Hov; done. }
    by rewrite (overload_name_not_callable _ _ Hc), Hov.
  - assert (Hf0 : frames s !! 0 = Some f_locals) by (by rewrite Hfr).
    rewrite decorator_register_under.
    destruct (register_under_existing s _ fn 0 f_locals l g Hf0 Hn Hg)
      as (s' & Hr & Hheap & Hfr' & _).
    exists s'. split; [done|]. by apply extended_in_place_intro.
Qed.

(** C8.  The caller's frame binds [n] to the group at [l].  Decorating one
    more definition under that name, by the bare [@overload] on a function
    called [n] or by [@overload(arg)] with [arg or fn.__name__] equal to
    [n], appends the function to that very group; the heap holds no more
    instances than before; a group of one candidate becomes a group of
    two; and [n] is bound to the group in the caller's frame. *)
Theorem second_definition_extends_group s f_locals rest n l g fn :
  frames s = f_locals :: rest ->
  f_locals !! n = Some (VGroup l) ->
  heap s !! l = Some g ->
  (__name__ fn = n ->
   exists s', overload (VFunction fn) s = (Return (Dispatcher (VGroup l)), s')
     /\ extended_in_place s s' f_locals rest n l g fn) /\
  (forall argv arg,
     overload_name argv = Return (Decorator arg) -> name_or arg fn = n ->
     overload argv s = (Return (Decorator arg), s) /\
     exists s', decorator arg fn 1 s = (Return (VGroup l), s')
       /\ extended_in_place s s' f_locals rest n l g fn).
Proof.
  intros Hfr Hn Hg. split.
  - intros <-. by apply bare_overload_existing.
  - intros argv arg Hov <-. by apply named_overload_existing.
Qed.

Lemma dispatch_from_name i fns n n' args kwargs :
  match dispatch_from i fns n args kwargs,
        dispatch_from i fns n' args kwargs with
  | Return j, Return j' => j = j'
  | Raise _, Raise _ => True
  | _, _ => False
  end.
Proof.
  revert i. induction fns as [|fn rest IH]; intros i; [done|].
  rewrite !dispatch_from_cons_verdict.
  destruct (verdict fn args kwargs) as [[]|]; [done| |done].
  apply IH.
Qed.

(** C10.  Two calls in a row with the same arguments: [__call__] leaves
    the group as it was, so the second call scans the same candidates and
    settles on the same index; and if the candidate chosen is pure, the
    two calls have the same outcome.  The index depends on the candidate
    sequence and the arguments alone: any instance with the same sequence
    settles on the same index. *)
Theorem call_twice_same_choice s self g args kwargs :
  heap s !! self = Some g ->
  let s1 := snd (__call__ invoke self args kwargs s) in
  let s2 := snd (__call__ invoke self args kwargs s1) in
  heap s1 !! self = Some g /\ heap s2 !! self = Some g /\
  (forall g1 g2, heap s !! self = Some g1 -> heap s1 !! self = Some g2 ->
     selected g1 args kwargs = selected g2 args kwargs) /\
  (forall g', _fns g' = _fns g ->
     selected g' args kwargs = selected g args kwargs) /\
  ((forall i fn, _dispatch g args kwargs = Return i ->
      _fns g !! i = Some fn -> pure invoke fn) ->
   fst (__call__ invoke self args kwargs s) = fst (__call__ invoke self args kwargs s1)).
Proof.
  intros Hg s1 s2.
  assert (Hg1 : heap s1 !! self = Some g).
  { subst s1. by rewrite heap___call__. }
  assert (Hg2 : heap s2 !! self = Some g).
  { subst s2. by rewrite heap___call__. }
  split_and!; try done.
  - intros g1 g2 H1 H2. congruence.
  - intros g' Hfns. unfold selected. rewrite !_dispatch_unfold, Hfns.
    destruct (dict_in "self" kwargs); [done|].
    pose proof (dispatch_from_name 0 (_fns g) (name g') (name g) args kwargs)
      as H.
    destruct (dispatch_from 0 (_fns g) (name g') args kwargs),
             (dispatch_from 0 (_fns g) (name g) args kwargs);
      try done. by subst.
  - intros Hpure.
    rewrite (__call___unfold _ _ _ _ _ Hg), (__call___unfold _ _ _ _ _ Hg1).
    destruct (dict_in "self" kwargs); [done|].
    destruct (_dispatch g args kwargs) as [i|e] eqn:Hd; [|done].
    destruct (_fns g !! i) as [fn|] eqn:Hi; [|done].
    rewrite !call_function_eq. simpl.
    by rewrite (Hpure i fn eq_refl Hi args kwargs (world s1) (world s)).
Qed.

(** * Further properties

    ** The forms of the decorator *)

(** X1.  [@overload], [@overload()], [@overload(None)] and [@overload('')]
    are one and the same registration: the bare form does to the caller's
    frame, the heap and the ledger exactly what the closure returned by
    [overload()] does when applied with its default [scope_level], the
    closure for [None] is the closure for no argument, and the empty string
    falls back on the function's own name as [None] does. *)
Theorem decorator_forms_agree (fn : function) s :
  overload (VFunction fn) s =
    (let '(r, s') := decorator None fn 1 s in (as_dispatcher r, s')) /\
  overload VNone s = (Return (Decorator None), s) /\
  overload (VStr "") s = (Return (Decorator (Some "")), s) /\
  decorator (Some "") fn 1 s = decorator None fn 1 s.
Proof.
  split_and!.
  - by rewrite overload_function_register_under, decorator_register_under.
  - by rewrite overload_name_not_callable.
  - by rewrite overload_name_not_callable.
  - by rewrite !decorator_register_under.
Qed.

(** ** A registration that fails *)

Lemma add_Raise self fn s e s' :
  (exists key, publication_key fn = Return key) ->
  add self fn s = (Raise e, s') -> s' = s.
Proof.
  intros [[[m q] line] Hkey].
  destruct (heap s !! self) as [g|] eqn:Hg.
  - destruct (add_run s self g fn Hg)
      as (r & s1 & Hadd & _ & _ & _ & _ & _ & Hoff & Hon).
    rewrite Hadd. intros [= -> <-].
    destruct (register g).
    + specialize (Hon eq_refl). rewrite Hkey in Hon. by destruct Hon.
    + by destruct (Hoff eq_refl).
  - unfold add, mbind, M_bind, deref. rewrite Hg. congruence.
Qed.

Lemma method_add_Raise v fn s e s' :
  (exists key, publication_key fn = Return key) ->
  method_add v fn s = (Raise e, s') -> s' = s.
Proof.
  intros Hkey. destruct v; simpl; unfold raise; try congruence.
  by apply add_Raise.
Qed.

Lemma register_under_Raise n fn lvl s e s' :
  (exists key, publication_key fn = Return key) ->
  register_under n fn lvl s = (Raise e, s') -> s' = s.
Proof.
  intros Hkey. rewrite register_under_unfold.
  destruct (frames s !! lvl) as [f_locals|]; [|congruence].
  destruct (f_locals !! n) as [v|].
  - destruct (method_add v fn s) as [[l|e1] s1] eqn:Hm; [congruence|].
    intros [= <- <-]. eauto using method_add_Raise.
  - set (s0 := set_heap _ s).
    assert (Hg : heap s0 !! length (heap s) =
                 Some {| name := n; register := true; _fns := [] |}).
    { simpl. by rewrite lookup_app_r, Nat.sub_diag. }
    destruct (add_run s0 _ _ fn Hg)
      as (r & s1 & Hadd & _ & _ & _ & _ & _ & _ & Hon).
    destruct Hkey as [[[m q] line] Hkey].
    specialize (Hon eq_refl). rewrite Hkey in Hon. destruct Hon as [-> _].
    simpl. rewrite Hadd. congruence.
Qed.

(** X2.  A registration of a function that raises leaves no trace.  The
    candidate is one that line 54 can file: it has a module, a qualified
    name and a first line, as every function has.  Whenever [overload], or
    the closure it returned ([decorator] with a scope level of one or
    more), ends in an exception on such a candidate, or on an argument
    that is no candidate at all, the state is the state before the call:
    no group is created or extended, nothing is published and no name is
    rebound. *)
Theorem failed_registration_changes_nothing s :
  (forall arg e s',
     (forall c, arg = VCallable c ->
        exists key, publication_key (Other c) = Return key) ->
     overload arg s = (Raise e, s') -> s' = s) /\
  (forall arg fn lvl e s',
     (exists key, publication_key fn = Return key) ->
     decorator arg fn (S lvl) s = (Raise e, s') -> s' = s) /\
  (forall f : function, exists key, publication_key f = Return key).
Proof.
  assert (Hdec : forall arg fn lvl e s',
     (exists key, publication_key fn = Return key) ->
     decorator arg fn (S lvl) s = (Raise e, s') -> s' = s).
  { intros arg fn lvl e s' Hkey. rewrite decorator_register_under_name.
    destruct (arg_or_name arg fn) as [n|e0]; [|congruence].
    by apply register_under_Raise. }
  assert (Hcand : forall (fn : candidate) e s',
     (exists key, publication_key fn = Return key) ->
     overload (value_of fn) s = (Raise e, s') -> s' = s).
  { intros fn e s' Hkey. rewrite overload_candidate_register_under.
    destruct (attr___name__ fn) as [n|e0]; [|congruence].
    destruct (register_under n fn 0 s) as [[v|e1] s1] eqn:Hr; simpl;
      [congruence|].
    intros [= <- <-]. eauto using register_under_Raise. }
  split_and!; [|done|by eexists].
  intros arg e s' Hkey. destruct (callable arg) eqn:Hc.
  - destruct arg; try discriminate Hc.
    + apply (Hcand (Def f)). by eexists.
    + unfold overload. simpl. unfold with_frame at 1.
      unfold mbind, M_bind. rewrite with_frame_lift. simpl.
      unfold raise. intros [= <- <-]. by destruct s.
    + apply (Hcand (Other c)). by apply Hkey.
  - rewrite (overload_name_not_callable _ _ Hc). congruence.
Qed.

(** ** What a registration touches in the frames *)

Lemma frames_register_under n fn lvl s :
  frames (snd (register_under n fn lvl s)) = frames s \/
  exists v, frames (snd (register_under n fn lvl s)) =
            alter (fun f => <[n := v]> f) lvl (frames s).
Proof.
  rewrite register_under_unfold.
  destruct (frames s !! lvl) as [f_locals|]; [|by left].
  destruct (f_locals !! n) as [v|].
  - destruct (stack_method_add v fn s) as [Hfr _].
    destruct (method_add v fn s) as [[l|e] s1]; simpl in *; [|by left].
    destruct (write_sticks _ _); simpl; [|by left].
    right. exists v. by rewrite Hfr.
  - set (s0 := set_heap _ s).
    destruct (stack_method_add (VGroup (length (heap s))) fn s0) as [Hfr _].
    destruct (method_add _ fn s0) as [[l|e] s1]; simpl in *; [|by left].
    destruct (write_sticks _ _); simpl; [|by left].
    right. eexists. by rewrite Hfr.
Qed.

(** X3.  Registering touches one binding of one frame.  After
    [decorator] has run with scope level [lvl + 1], the call stack is as
    deep as before, and every binding of every frame is as before, except
    possibly the binding of the registered name in the frame [lvl] levels
    above the caller's innermost one. *)
Theorem registration_touches_one_binding arg fn lvl s :
  let n := name_or arg fn in
  let s' := snd (decorator arg fn (S lvl) s) in
  length (frames s') = length (frames s) /\
  (forall i f, frames s !! i = Some f ->
     exists f', frames s' !! i = Some f' /\
       forall k, i <> lvl \/ k <> n -> f' !! k = f !! k).
Proof.
  intros n s'. subst s'. rewrite decorator_register_under. fold n.
  split.
  - destruct (frames_register_under n fn lvl s) as [->|[v ->]]; [done|].
    by rewrite length_alter.
  - intros i f Hi.
    destruct (frames_register_under n fn lvl s) as [->|[v ->]]; [by eauto|].
    destruct (decide (i = lvl)) as [->|Hne].
    + exists (<[n := v]> f). split.
      * by rewrite list_lookup_alter_eq, Hi.
      * intros k [?|Hk]; [done|]. by rewrite lookup_insert_ne.
    + exists f. split; [|done]. by rewrite list_lookup_alter_ne.
Qed.

(** ** The ledger *)

Lemma registry_getitem_setitem_ne m q line fn reg m' q' line' :
  (m', q', line') <> (m, q, line) ->
  registry_getitem m' q' line' (registry_setitem m q line fn reg) =
  registry_getitem m' q' line' reg.
Proof.
  intros Hne. unfold registry_getitem, registry_setitem.
  destruct (decide (m = m')) as [<-|Hm]; [|by rewrite lookup_insert_ne].
  rewrite lookup_insert_eq. simpl.
  destruct (decide (q = q')) as [<-|Hq].
  - rewrite lookup_insert_eq. simpl.
    destruct (decide (line = line')) as [<-|Hl]; [done|].
    rewrite lookup_insert_ne by done.
    destruct (reg !! m) as [by_name|]; simpl; [|done].
    by destruct (by_name !! q).
  - rewrite lookup_insert_ne by done.
    destruct (reg !! m) as [by_name|]; simpl; [done|].
    by rewrite lookup_empty.
Qed.

Lemma add_ledger s self g (fn : function) :
  heap s !! self = Some g ->
  registry_consistent s ->
  ledger (snd (add self fn s)) =
    (if register g
     then registry_setitem (__module__ fn) (__qualname__ fn)
            (co_firstlineno fn) fn (ledger s)
     else ledger s) /\
  registry_consistent (snd (add self fn s)).
Proof.
  intros Hg Hwf.
  destruct (add_run s self g fn Hg)
    as (r & s' & Hadd & _ & _ & _ & _ & _ & Hoff & Hon).
  rewrite Hadd. simpl. destruct (register g).
  - specialize (Hon eq_refl). rewrite publication_key_Def in Hon.
    destruct Hon as [_ Hon]. by destruct (Hon Hwf) as (? & _ & ?).
  - destruct (Hoff eq_refl) as (_ & Hglob & Ht & Ho & _).
    unfold ledger, registry_consistent in *. by rewrite Hglob, Ht, Ho.
Qed.

(** X4.  Publishing is one insertion.  With [register] set, [add] leaves
    the ledger as it was except for the entry under the function's module,
    qualified name and first line, which now is the function; every other
    entry, those of other tools in the table of [typing] included, reads as
    before.  Without [register] the ledger is not written. *)
Theorem add_publishes_one_entry s self g (fn : function) :
  heap s !! self = Some g ->
  registry_consistent s ->
  let s' := snd (add self fn s) in
  let key := (__module__ fn, __qualname__ fn, co_firstlineno fn) in
  (register g = true ->
   registry_getitem key.1.1 key.1.2 key.2 (ledger s') = Some fn) /\
  (register g = false -> ledger s' = ledger s) /\
  (forall m q line, (m, q, line) <> key ->
     registry_getitem m q line (ledger s') =
     registry_getitem m q line (ledger s)) /\
  registry_consistent s'.
Proof.
  intros Hg Hwf s' key. subst s' key. simpl.
  destruct (add_ledger s self g fn Hg Hwf) as [Hl Hwf'].
  split_and!; try done.
  - intros Hr. rewrite Hl, Hr. apply registry_getitem_setitem.
  - intros Hr. by rewrite Hl, Hr.
  - intros m q line Hne. rewrite Hl. destruct (register g); [|done].
    by apply registry_getitem_setitem_ne.
Qed.

(** X5.  [_get_overload_registry] settles the table once.  It always
    returns; a second call returns the same table and changes nothing; the
    global then names that table.  Starting with the global unset, the table
    is the one of [typing] exactly when the host has it, and only in the
    other case is the warning of line 28 added, once. *)
Theorem registry_settled_once s :
  exists r s1,
    _get_overload_registry s = (Return r, s1) /\
    _get_overload_registry s1 = (Return r, s1) /\
    _overload_registry s1 = Some r /\
    heap s1 = heap s /\ frames s1 = frames s /\
    (_overload_registry s = None ->
     (r = typing_table <-> is_Some (typing_overload_registry s)) /\
     (r = typing_table -> s1 = set__overload_registry (Some r) s) /\
     (r = own_table ->
      own_registry s1 = ∅ /\ length (warnings s1) = S (length (warnings s))))
    /\ (forall r0, _overload_registry s = Some r0 -> r = r0 /\ s1 = s).
Proof.
  destruct s as [h f ks glob t o w wd iv]. run_M. simpl.
  destruct glob as [r0|]; simpl.
  - exists r0. eexists. split_and!; try done. by intros r1 [= ->].
  - destruct t as [t'|]; simpl.
    + exists typing_table. eexists. split_and!; try done.
      all: try (intros _; split_and!; try done; split; by eauto).
    + exists own_table. eexists. split_and!; try done.
      all: try (intros _; split_and!; try done).
      all: try (split; [done|by intros [? [=]]]).
      all: try (intros _; split; [done|]; simpl; rewrite length_app; simpl; lia).
Qed.

(** ** What every operation keeps of the ledger *)

Lemma ledger_once_refl s : ledger_once s s.
Proof. split_and!; eauto. Qed.

Lemma ledger_once_trans s1 s2 s3 :
  ledger_once s1 s2 -> ledger_once s2 s3 -> ledger_once s1 s3.
Proof.
  intros (Hset12 & Hnew12 & Hwf12) (Hset23 & Hnew23 & Hwf23). split_and!.
  - intros r Hr. destruct (Hset12 r Hr) as [Hr2 Hw2].
    destruct (Hset23 r Hr2) as [Hr3 Hw3]. split; congruence.
  - intros Hr. destruct (Hnew12 Hr) as [Hw|(Hr2 & w & Hw)].
    + destruct (_overload_registry s2) as [r2|] eqn:Hr2.
      * destruct (Hset23 r2 eq_refl) as [_ Hw3]. left. congruence.
      * destruct (Hnew23 eq_refl) as [Hw3|(Hr3 & w & Hw3)].
        -- left. congruence.
        -- right. split; [done|]. exists w. congruence.
    + destruct (Hset23 _ Hr2) as [Hr3 Hw3]. right. split; [done|].
      exists w. congruence.
  - eauto.
Qed.

Lemma ledger_once_view s s' :
  _overload_registry s' = _overload_registry s ->
  typing_overload_registry s' = typing_overload_registry s ->
  warnings s' = warnings s ->
  ledger_once s s'.
Proof.
  intros Hg Ht Hw. unfold ledger_once, registry_consistent.
  rewrite Hg, Ht, Hw. split_and!; eauto.
Qed.

Lemma ledger_once_set_stack_l fs ks s s' :
  ledger_once (set_stack fs ks s) s' -> ledger_once s s'.
Proof. done. Qed.

Lemma ledger_once_set_stack_r fs ks s s' :
  ledger_once s s' -> ledger_once s (set_stack fs ks s').
Proof. done. Qed.

Lemma settles_once_bind {A B} (m : M W A) (k : A -> M W B) :
  settles_once m -> (forall a, settles_once (k a)) -> settles_once (m ≫= k).
Proof.
  intros Hm Hk s. unfold mbind, M_bind.
  specialize (Hm s). destruct (m s) as [[a|e] s1]; simpl in *; [|done].
  eapply ledger_once_trans; [done|]. apply Hk.
Qed.

Lemma settles_once_with_frame {A} co_varnames locals (m : M W A) :
  settles_once m -> settles_once (with_frame co_varnames locals m).
Proof.
  intros Hm s. unfold with_frame.
  specialize (Hm (set_stack (locals :: frames s)
                            (Some co_varnames :: fast_locals s) s)).
  destruct (m _) as [r s1]. simpl in *.
  by apply ledger_once_set_stack_r, (ledger_once_set_stack_l _ _ _ _ Hm).
Qed.

Lemma settles_once_view {A} (m : M W A) :
  (forall s, _overload_registry (snd (m s)) = _overload_registry s /\
             typing_overload_registry (snd (m s)) = typing_overload_registry s
             /\ warnings (snd (m s)) = warnings s) ->
  settles_once m.
Proof. intros H s. destruct (H s) as (? & ? & ?). by apply ledger_once_view. Qed.

Lemma settles_once_lift {A} (r : result A) : settles_once (lift (W:=W) r).
Proof. by apply settles_once_view. Qed.

Lemma settles_once__get_overload_registry :
  settles_once (_get_overload_registry (W:=W)).
Proof.
  intros [h f ks glob t o w wd iv]. run_M.
  unfold ledger_once, registry_consistent. simpl.
  destruct glob as [r0|]; simpl; [split_and!; eauto|].
  destruct t as [t'|]; simpl.
  - split_and!; eauto. done.
  - split_and!; [done| |done]. intros _. right. split; [done|]. by eexists.
Qed.

Lemma settles_once_registry_write r f :
  settles_once (registry_write (W:=W) r f).
Proof.
  intros [h fr ks glob t o w wd iv]. unfold registry_write, modify.
  unfold ledger_once, registry_consistent.
  destruct r; simpl; split_and!; eauto.
  intros Hwf Hg. destruct (Hwf Hg) as [t' ->]. by eexists.
Qed.

Lemma settles_once_deref l : settles_once (deref (W:=W) l).
Proof.
  apply settles_once_view. intros s. unfold deref.
  by destruct (heap s !! l).
Qed.

Lemma settles_once_add self fn : settles_once (add (W:=W) self fn).
Proof.
  unfold add. apply settles_once_bind; [apply settles_once_deref|].
  intros g. apply settles_once_bind; [by apply settles_once_view|].
  intros _. apply settles_once_bind; [|intros; by apply settles_once_view].
  destruct (register g); [|by apply settles_once_view].
  apply settles_once_bind; [apply settles_once__get_overload_registry|].
  intros r. apply settles_once_bind; [apply settles_once_lift|].
  intros m. apply settles_once_bind; [apply settles_once_registry_write|].
  intros _. apply settles_once_bind; [apply settles_once_lift|].
  intros q. apply settles_once_bind; [apply settles_once_registry_write|].
  intros _. apply settles_once_bind; [apply settles_once_lift|].
  intros line. apply settles_once_registry_write.
Qed.

Lemma settles_once___call__ self args kwargs :
  settles_once (__call__ invoke self args kwargs).
Proof.
  unfold __call__. apply settles_once_bind; [apply settles_once_lift|].
  intros _. apply settles_once_bind; [apply settles_once_deref|].
  intros g. apply settles_once_bind; [by apply settles_once_view|].
  intros i. destruct (_fns g !! i) as [fn|]; apply settles_once_view; [|done].
  intros s. by rewrite call_function_eq.
Qed.

Lemma settles_once_f_locals_setitem lvl n v :
  settles_once (f_locals_setitem (W:=W) lvl n v).
Proof.
  apply settles_once_view. intros s. unfold f_locals_setitem, modify. simpl.
  by destruct (write_sticks _ _).
Qed.

Lemma settles_once_decorator arg fn lvl :
  settles_once (decorator (W:=W) arg fn lvl).
Proof.
  apply settles_once_with_frame, settles_once_bind;
    [apply settles_once_lift|].
  intros n. apply settles_once_bind; [by apply settles_once_view|].
  intros stack. destruct (stack !! lvl) as [f_locals|];
    [|by apply settles_once_view].
  apply settles_once_bind.
  - destruct (f_locals !! n) as [v|]; [by apply settles_once_view|].
    apply settles_once_bind; [by apply settles_once_view|].
    intros l. by apply settles_once_view.
  - intros v. apply settles_once_bind.
    + destruct v; try (by apply settles_once_view). apply settles_once_add.
    + intros _. apply settles_once_bind;
        [apply settles_once_f_locals_setitem|].
      intros; by apply settles_once_view.
Qed.

Lemma settles_once_overload arg : settles_once (overload (W:=W) arg).
Proof.
  apply settles_once_with_frame. destruct (callable arg).
  - apply settles_once_bind.
    + apply settles_once_view. intros s. by rewrite with_frame_lift.
    + intros [v|a]; [by apply settles_once_view|].
      destruct arg; try (by apply settles_once_view);
        (apply settles_once_bind; [apply settles_once_decorator|]);
        intros v; by apply settles_once_view.
  - by apply settles_once_view.
Qed.

Lemma perform_ledger_once s op : ledger_once s (perform invoke s op).
Proof.
  destruct op; simpl.
  - by apply ledger_once_view.
  - apply settles_once_add.
  - apply (settles_once_bind (deref self)); [apply settles_once_deref|].
    intros g. by apply settles_once_view.
  - apply settles_once___call__.
  - apply settles_once__get_overload_registry.
  - apply settles_once_overload.
  - apply settles_once_decorator.
Qed.

(** X6.  Whatever the module is asked to do, and in whatever order: once
    the global names a table it names that table for good and no warning is
    issued any more; from an unset global at most the one warning is ever
    added, and then the substitute table is the one in use; and a state in
    which the table named exists stays such a state. *)
Theorem ledger_choice_is_final ops s :
  let s' := foldl (perform invoke) s ops in
  (forall r, _overload_registry s = Some r ->
     _overload_registry s' = Some r /\ warnings s' = warnings s) /\
  (_overload_registry s = None ->
     warnings s' = warnings s \/
     (_overload_registry s' = Some own_table /\
      exists w, warnings s' = warnings s ++ [w])) /\
  (registry_consistent s -> registry_consistent s').
Proof.
  revert s. induction ops as [|op ops IH]; intros s; [apply ledger_once_refl|].
  simpl. eapply ledger_once_trans; [apply perform_ledger_once | apply IH].
Qed.

(** X7.  A group as [FunctionOverload(name, register)] makes it has no
    candidate, so every call of it fails: with the dispatch failure, naming
    it, unless the call carries a keyword [self], which the host refuses
    before [__call__] is entered.  The instances that existed are as they
    were. *)
Theorem new_group_rejects_every_call n r args kwargs s :
  let l := length (heap s) in
  let s1 := snd (__init__ n r s) in
  __init__ n r s = (Return l, s1) /\
  heap s1 !! l = Some {| name := n; register := r; _fns := [] |} /\
  (forall l' g, heap s !! l' = Some g -> heap s1 !! l' = Some g) /\
  __call__ invoke l args kwargs s1 =
    (Raise (if dict_in "self" kwargs then receiver_clash "__call__"
            else no_match n), s1).
Proof.
  intros l s1. subst l s1. rewrite __init___eq. simpl.
  assert (Hl : (heap s ++ [{| name := n; register := r; _fns := [] |}])
                 !! length (heap s)
               = Some {| name := n; register := r; _fns := [] |}).
  { by rewrite lookup_app_r, Nat.sub_diag. }
  split_and!; try done.
  - intros l' g Hg. by apply lookup_app_l_Some.
  - rewrite (__call___unfold (set_heap _ s) _ _ _ _ Hl), _dispatch_unfold.
    by destruct (dict_in "self" kwargs).
Qed.

(** ** Definitions in a row *)

Lemma register_under_fresh s n (fn : function) f_locals rest :
  frames s = f_locals :: rest ->
  fast_locals s !! 0 = Some None ->
  f_locals !! n = None ->
  exists s',
    register_under n fn 0 s = (Return (VGroup (length (heap s))), s') /\
    heap s' = heap s ++ [{| name := n; register := true; _fns := [fn] |}] /\
    frames s' = <[n := VGroup (length (heap s))]> f_locals :: rest /\
    fast_locals s' = fast_locals s /\
    (registry_consistent s ->
     ledger s' = registry_setitem (__module__ fn) (__qualname__ fn)
                   (co_firstlineno fn) fn (ledger s)).
Proof.
  intros Hfr Hks Hn. rewrite register_under_unfold, Hfr. simpl. rewrite Hn.
  set (l := length (heap s)).
  set (g := {| name := n; register := true; _fns := [] |}).
  set (s0 := set_heap (heap s ++ [g]) s).
  assert (Hg : heap s0 !! l = Some g).
  { simpl. subst l. by rewrite lookup_app_r, Nat.sub_diag. }
  destruct (add_spec s0 l g fn Hg) as (s1 & Hadd & Hheap & Hfr1 & Hks1 & _).
  unfold method_add. rewrite Hadd, Hks1. simpl. rewrite Hks. simpl.
  eexists. split; [reflexivity|]. simpl.
  rewrite Hheap, Hfr1, Hks1. simpl. rewrite Hfr. simpl. split_and!; try done.
  - subst l. rewrite insert_app_r_alt by lia. by rewrite Nat.sub_diag.
  - intros Hwf.
    destruct (add_ledger s0 l g fn Hg Hwf) as [Hl _].
    rewrite Hadd in Hl. simpl in Hl.
    change (ledger (set_frames _ s1)) with (ledger s1). by rewrite Hl.
Qed.

(** X8.  The caller's frame runs the body of a module or of a class and
    does not bind the name.  The first decorated definition under that name
    makes a new group at a new address, named after [arg or fn.__name__],
    with [register] set and the function as its only candidate; the name is
    bound to the group in that frame; and the function is published in the
    ledger, there being no way to ask the decorator for a group that does
    not publish. *)
Theorem first_definition_new_group arg fn f_locals rest s :
  frames s = f_locals :: rest ->
  fast_locals s !! 0 = Some None ->
  f_locals !! name_or arg fn = None ->
  let n := name_or arg fn in
  let l := length (heap s) in
  exists s',
    decorator arg fn 1 s = (Return (VGroup l), s') /\
    (arg = None ->
     overload (VFunction fn) s = (Return (Dispatcher (VGroup l)), s')) /\
    heap s' = heap s ++ [{| name := n; register := true; _fns := [fn] |}] /\
    frames s' = <[n := VGroup l]> f_locals :: rest /\
    (registry_consistent s ->
     ledger s' = registry_setitem (__module__ fn) (__qualname__ fn)
                   (co_firstlineno fn) fn (ledger s)).
Proof.
  intros Hfr Hks Hn n l. change (f_locals !! n = None) in Hn.
  destruct (register_under_fresh s n fn f_locals rest Hfr Hks Hn)
    as (s' & Hr & Hheap & Hfr' & _ & Hled).
  exists s'. split_and!; try done.
  - by rewrite decorator_register_under.
  - intros ->. rewrite overload_function_register_under.
    simpl in n. subst n. by rewrite Hr.
Qed.

Lemma define_all_existing (fns : list function) :
  forall s f_locals rest l g n,
  frames s = f_locals :: rest ->
  f_locals !! n = Some (VGroup l) ->
  heap s !! l = Some g ->
  (forall fn, fn ∈ fns -> __name__ fn = n) ->
  heap (define_all fns s) =
    <[l := {| name := name g; register := register g;
              _fns := _fns g ++ (Def <$> fns) |}]> (heap s) /\
  frames (define_all fns s) = frames s.
Proof.
  induction fns as [|fn fns IH]; intros s f_locals rest l g n Hfr Hn Hg Hall.
  - simpl. rewrite app_nil_r. split; [|done].
    symmetry. destruct g. by apply list_insert_id.
  - simpl. assert (Hname : __name__ fn = n) by (apply Hall; by left).
    rewrite <- Hname in Hn.
    destruct (bare_overload_existing s f_locals rest l g fn Hfr Hn Hg)
      as (s1 & Hov & Hheap & Hg1 & _ & _ & Hfr1 & _).
    rewrite Hov. simpl.
    rewrite (insert_id _ _ _ Hn) in Hfr1.
    destruct (IH s1 f_locals rest l (appended g fn) n Hfr1
                ltac:(by rewrite <- Hname) Hg1
                ltac:(intros; apply Hall; by right)) as [Hh Hf].
    rewrite Hh, Hf, Hheap, Hfr1, Hfr. split; [|done]. simpl.
    rewrite list_insert_insert_eq. by rewrite <- app_assoc.
Qed.

(** X9.  Any number of definitions of one name, decorated with the bare
    [@overload] one after the other in the body of a module or of a class
    that did not bind the name: they end up in one group, at one address,
    in the order of definition, and the frame binds the name to it. *)
Theorem definitions_collect_in_order fn fns f_locals rest s :
  frames s = f_locals :: rest ->
  fast_locals s !! 0 = Some None ->
  f_locals !! __name__ fn = None ->
  (forall fn', fn' ∈ fns -> __name__ fn' = __name__ fn) ->
  let s' := define_all (fn :: fns) s in
  heap s' = heap s ++ [{| name := __name__ fn; register := true;
                          _fns := Def <$> (fn :: fns) |}] /\
  frames s' = <[__name__ fn := VGroup (length (heap s))]> f_locals :: rest.
Proof.
  intros Hfr Hks Hn Hall s'. subst s'. simpl.
  destruct (register_under_fresh s (__name__ fn) fn f_locals rest Hfr Hks Hn)
    as (s1 & Hr & Hheap & Hfr1 & _ & _).
  rewrite overload_function_register_under, Hr. simpl.
  set (g1 := {| name := __name__ fn; register := true; _fns := [Def fn] |}).
  assert (Hg1 : heap s1 !! length (heap s) = Some g1).
  { rewrite Hheap. by rewrite lookup_app_r, Nat.sub_diag. }
  destruct (define_all_existing fns s1 _ rest (length (heap s)) g1
              (__name__ fn) Hfr1 (lookup_insert_eq _ _ _) Hg1 Hall)
    as [Hh Hf].
  rewrite Hh, Hf, Hfr1. split; [|done]. simpl. rewrite Hheap.
  rewrite insert_app_r_alt by lia. by rewrite Nat.sub_diag.
Qed.

(** ** More candidates, same answers *)

Lemma dispatch_from_app i fns fns' n args kwargs :
  dispatch_from i (fns ++ fns') n args kwargs =
  match dispatch_from i fns n args kwargs with
  | Return j => Return j
  | Raise e =>
      if exhausts fns args kwargs
      then dispatch_from (i + length fns) fns' n args kwargs
      else Raise e
  end.
Proof.
  revert i. induction fns as [|fn fns IH]; intros i.
  - simpl. by rewrite Nat.add_0_r.
  - rewrite <- app_comm_cons, !dispatch_from_cons_verdict, exhausts_cons.
    destruct (verdict fn args kwargs) as [[]|]; [done| |done].
    rewrite IH.
    by replace (i + length (fn :: fns)) with (S i + length fns)
      by (simpl; lia).
Qed.

(** X10.  Adding a candidate is conservative.  A call that the group
    answered keeps its answer, by the same candidate.  A call that every
    candidate of the group rejected goes to the new candidate: it is
    answered there if that one accepts it, fails as before if that one
    rejects it, and ends with the exception of [inspect.signature] if the
    new candidate has no signature.  A call that failed for another
    reason, a keyword [self] or an earlier candidate without signature,
    fails in the same way. *)
Theorem add_keeps_earlier_matches (g : FunctionOverload) (fn : candidate)
    (args : list value) (kwargs : odict) :
  _dispatch (appended g fn) args kwargs =
  match _dispatch g args kwargs with
  | Return i => Return i
  | Raise e =>
      if negb (dict_in "self" kwargs) && exhausts (_fns g) args kwargs then
        match verdict fn args kwargs with
        | Return true => Return (length (_fns g))
        | Return false => Raise e
        | Raise e' => Raise e'
        end
      else Raise e
  end.
Proof.
  rewrite !_dispatch_unfold. simpl.
  destruct (dict_in "self" kwargs); [done|]. simpl.
  rewrite dispatch_from_app.
  destruct (dispatch_from 0 (_fns g) (name g) args kwargs) as [i|e] eqn:E;
    [done|].
  destruct (exhausts (_fns g) args kwargs) eqn:Hex; [|done].
  apply dispatch_from_Raise in E as [[_ ->]|(k & fk & Hk & Hv & _)].
  - rewrite dispatch_from_cons_verdict. simpl.
    by destruct (verdict fn args kwargs) as [[]|].
  - rewrite exhausts_true in Hex.
    specialize (Hex fk (list_elem_of_lookup_2 _ _ _ Hk)). congruence.
Qed.

(** X11.  A function registered twice is only ever reached through its
    first registration: the index [_dispatch] returns is never that of a
    candidate which already stands at an earlier index. *)
Theorem duplicate_is_never_selected (g : FunctionOverload) args kwargs i j fn :
  i < j ->
  _fns g !! i = Some fn -> _fns g !! j = Some fn ->
  _dispatch g args kwargs <> Return j.
Proof.
  intros Hlt Hi Hj Hd.
  apply _dispatch_Return in Hd as (_ & fn' & Hj' & Hacc & Hmin).
  assert (fn' = fn) as -> by congruence.
  specialize (Hmin i fn Hlt Hi). congruence.
Qed.

(** ** What [bind] leaves for the type checks *)

Lemma dict_get_set k k' v d :
  dict_get k (dict_set k' v d) =
  if decide (k' = k) then Some v else dict_get k d.
Proof.
  induction d as [|[k0 v0] d IH]; simpl.
  - done.
  - destruct (decide (k0 = k')) as [->|Hne]; simpl.
    + by destruct (decide (k' = k)).
    + destruct (decide (k0 = k)) as [->|Hne'].
      * by destruct (decide (k' = k)); [congruence|].
      * done.
Qed.

Lemma dict_in_set k k' v d :
  dict_in k d = true -> dict_in k (dict_set k' v d) = true.
Proof.
  unfold dict_in. rewrite dict_get_set. by destruct (decide (k' = k)).
Qed.

Lemma dict_in_set_eq k v d : dict_in k (dict_set k v d) = true.
Proof. unfold dict_in. rewrite dict_get_set. by rewrite decide_True. Qed.

Lemma covered_mono p (a a' : odict) :
  (forall k, dict_in k a = true -> dict_in k a' = true) ->
  covered p a -> covered p a'.
Proof. intros Hm [H|H]; [left; by apply Hm | by right]. Qed.

(** The cases of one step of the positional walk of [bind]. *)
Ltac covered_head :=
  split_and!;
  [ first [done | intros ? ?; by apply dict_in_set]
  | first [ intros ? ?; by right
          | intros ? [->|?]%elem_of_cons;
            [left; unfold covered; by eauto 6 | by right] ]
  | intros ? ?; first [done | by right] ].

Lemma bind_positional_covered parameters args kwargs :
  forall arguments arguments' rest,
  bind_positional parameters args kwargs arguments = Return (arguments', rest) ->
  (forall k, dict_in k arguments = true -> dict_in k arguments' = true) /\
  (forall p, p ∈ parameters -> covered p arguments' \/ p ∈ rest) /\
  (forall p, p ∈ rest -> p ∈ parameters).
Proof.
  revert parameters.
  induction args as [|arg_val arg_vals IH];
    intros [|param ps] arguments arguments' rest H; simpl in H; simplify_eq.
  - split_and!; eauto.
  - repeat case_match; simplify_eq; covered_head.
  - repeat case_match; simplify_eq.
    + covered_head.
    + destruct (IH _ _ _ _ H) as (Hm & Hc & Hr). split_and!.
      * intros k Hk. by apply Hm, dict_in_set.
      * intros p [->|Hp]%elem_of_cons; [|by apply Hc].
        left. left. apply Hm, dict_in_set_eq.
      * intros p Hp. right. by apply Hr.
Qed.

Lemma bind_keywords_covered parameters :
  forall kwargs kwargs_param arguments arguments' kwargs' kp,
  bind_keywords parameters kwargs kwargs_param arguments =
    Return (arguments', kwargs', kp) ->
  (forall k, dict_in k arguments = true -> dict_in k arguments' = true) /\
  (forall p, p ∈ parameters -> covered p arguments').
Proof.
  induction parameters as [|param ps IH];
    intros kwargs kwargs_param arguments arguments' kwargs' kp H;
    simpl in H; simplify_eq.
  - split; [done|]. intros p Hp. by apply elem_of_nil in Hp.
  - repeat case_match; simplify_eq;
      destruct (IH _ _ _ _ _ _ H) as [Hm Hc];
      (split; [first [done | intros k0 Hk0; by apply Hm, dict_in_set]|]);
      intros p [->|Hp]%elem_of_cons; try (by apply Hc);
      try match goal with
          | Hb : bool_decide _ = false |- _ =>
              apply bool_decide_eq_false in Hb
          end;
      first [ by (unfold covered; eauto 6)
            | left; apply Hm, dict_in_set_eq ].
Qed.

(** After a successful [bind] every parameter is covered. *)
Lemma bind_covered sig args kwargs bound p :
  bind sig args kwargs = Return bound -> p ∈ sig -> covered p bound.
Proof.
  unfold bind, mbind, result_bind. intros H Hp.
  destruct (bind_positional sig args kwargs []) as [[a1 ps]|e] eqn:E1;
    [|done].
  destruct (bind_keywords ps kwargs None a1) as [[[a2 kw] kp]|e] eqn:E2;
    [|done].
  destruct (bind_positional_covered _ _ _ _ _ _ E1) as (_ & Hc1 & _).
  destruct (bind_keywords_covered _ _ _ _ _ _ _ E2) as (Hm2 & Hc2).
  assert (Hc : covered p a2).
  { destruct (Hc1 p Hp) as [Hc|Hin]; [by eapply covered_mono|by apply Hc2]. }
  destruct kw as [|[k v] kw]; simplify_eq; [done|].
  destruct kp as [q|]; simplify_eq.
  eapply covered_mono; [|done]. intros k'. apply dict_in_set.
Qed.

Lemma apply_defaults_covered sig arguments p :
  p ∈ sig -> covered p arguments ->
  exists v, (param_name p, v) ∈ apply_defaults sig arguments.
Proof.
  intros Hp Hc. induction sig as [|param ps IH];
    [by apply elem_of_nil in Hp|].
  apply elem_of_cons in Hp as [<-|Hp].
  - simpl. unfold covered, dict_in in Hc.
    destruct (dict_get (param_name p) arguments) as [v|];
      [exists v; by left|].
    destruct (param_default p) as [d|]; [exists d; by left|].
    destruct Hc as [?|[?|[Hk|Hk]]]; try done; rewrite Hk; simpl.
    + eexists. by left.
    + eexists. by left.
  - destruct (IH Hp) as [v Hv]. exists v. simpl.
    repeat case_match; try done; by right.
Qed.

Lemma apply_defaults_default sig arguments p d :
  p ∈ sig -> dict_get (param_name p) arguments = None ->
  param_default p = Some d ->
  (param_name p, d) ∈ apply_defaults sig arguments.
Proof.
  intros Hp Hg Hd. induction sig as [|param ps IH];
    [by apply elem_of_nil in Hp|].
  apply elem_of_cons in Hp as [<-|Hp].
  - simpl. rewrite Hg, Hd. by left.
  - specialize (IH Hp). simpl. repeat case_match; try done; by right.
Qed.

(** X13.  Defaults are checked like supplied arguments, because
    [apply_defaults] runs before the checks.  A candidate with a parameter
    left to its default in a call is rejected for that call when the
    default is no instance of the parameter's class, as with
    [x: int = None]. *)
Theorem default_is_type_checked (fn : function) args kwargs bound p d c :
  bind (signature fn) args kwargs = Return bound ->
  parameters_getitem (signature fn) (param_name p) = Return p ->
  dict_get (param_name p) bound = None ->
  param_default p = Some d ->
  param_annotation p = Cls c ->
  isinstance d (Cls c) = Return false ->
  accepts fn args kwargs = false.
Proof.
  intros Hb Hget Hg Hd Ha Hi.
  destruct (parameters_getitem_Return _ _ _ Hget) as [Hp _].
  eapply accepts_false_by_argument; eauto using apply_defaults_default.
  rewrite Ha. unfold check_type_hint, mbind, result_bind. by rewrite Hi.
Qed.

(** X14.  A candidate with a parameter whose annotation [isinstance]
    refuses, [typing.Any] or an object that is no type (the text that
    postponed evaluation of annotations leaves, a subscripted generic), is
    never chosen, whatever the call: every call that binds gives that
    parameter a value, the check of the value raises [TypeError], and the
    [except] of line 82 takes it for a mismatch. *)
Theorem refused_annotation_never_selected (fn : function) np p args kwargs :
  parameters_getitem (signature fn) np = Return p ->
  (param_annotation p = Any \/ exists src, param_annotation p = NotAType src) ->
  accepts fn args kwargs = false /\
  forall g i, _fns g !! i = Some (Def fn) ->
              _dispatch g args kwargs <> Return i.
Proof.
  intros Hget Hann.
  assert (Hacc : accepts fn args kwargs = false).
  { destruct (parameters_getitem_Return _ _ _ Hget) as [Hp Hn].
    destruct (bind (signature fn) args kwargs) as [bound|e] eqn:Hb.
    - destruct (apply_defaults_covered _ bound p Hp
                  (bind_covered _ _ _ _ _ Hb Hp)) as [v Hv].
      rewrite Hn in Hv.
      eapply accepts_false_by_argument; eauto.
      destruct Hann as [->|[src ->]]; done.
    - unfold accepts, try_candidate, mbind, result_bind. by rewrite Hb. }
  split; [done|]. intros g i Hi Hd.
  apply _dispatch_Return in Hd as (_ & fn' & Hi' & Hacc' & _).
  assert (fn' = Def fn) as -> by congruence.
  rewrite verdict_Def in Hacc'. congruence.
Qed.

(** ** Variadic parameters *)

Section Variadic.

Variable np : string.
Variable k : ParameterKind.
Hypothesis k_variadic : k = VAR_POSITIONAL \/ k = VAR_KEYWORD.







End Variadic.


End Properties.

Import Shapes.

(** ** The scenarios of the specification *)

Example area_of_rectangle :
  fst (__call__ invoke 0 [VInt 3; VInt 4] []
         (with_group "area" [area_rect; area_circle])) = Return (VInt 12).
Proof. reflexivity. Qed.

Example area_of_circle :
  fst (__call__ invoke 0 [VFloat 5 (-1)] []
         (with_group "area" [area_rect; area_circle]))
  = Return (VStr "circle").
Proof. reflexivity. Qed.

Example greet_order_wins :
  fst (__call__ invoke 0 [VStr "x"] []
         (with_group "greet" [greet_plain; greet_loud]))
  = Return (VStr "plain").
Proof. reflexivity. Qed.

Example no_overload_for_object :
  fst (__call__ invoke 0 [VObject (UserClass "Thing")] []
         (with_group "show" [show_int; greet_plain]))
  = Raise (no_match "show").
Proof. reflexivity. Qed.

Example first_definition_creates_group :
  heap after_first =
    [{| name := "area"; register := true; _fns := [area_rect] |}] /\
  frames after_first = [{[ "area" := VGroup 0 ]}].
Proof. split; reflexivity. Qed.

(** ** Instances of the theorems *)

(** C2.  What the code does with an [Any] annotation: [isinstance] is
    asked first and raises, so the check raises for every value and the
    test [typ is Any] two lines further is never reached.  [show(1)]
    against the single candidate [def show(x: Any)] is therefore a
    dispatch failure, while the same function without the annotation
    accepts the call. *)
Theorem Any_annotation_rejects :
  (forall v, check_type_hint Any v =
     Raise (Exn TypeError "typing.Any cannot be used with isinstance()")) /\
  accepts show_any [VInt 1] [] = false /\
  accepts show_bare [VInt 1] [] = true /\
  __call__ invoke 0 [VInt 1] [] (with_group "show" [show_any]) =
    (Raise (Exn TypeError
       "no matching overload for function `show` and call signature"),
     with_group "show" [show_any]).
Proof. split_and!; [intros v|..]; reflexivity. Qed.


Lemma unannotated_parameter_accepts_witness :
  check_type_hint Parameter_empty (VStr "a") = Return tt /\
  accepts show_bare [VStr "a"] [] = true.
Proof.
  destruct (unannotated_parameter_accepts (VStr "a") show_bare [VStr "a"] [])
    as [Hcheck Hall].
  split; [exact Hcheck|].
  apply (Hall ltac:(intros p Hp; by apply list_elem_of_singleton in Hp as ->)
           [("x", VStr "a")] eq_refl).
Defined.

Lemma concrete_type_only_instances_witness :
  bind (signature area_rect) [VStr "a"; VInt 4] [] =
    Return [("w", VStr "a"); ("h", VInt 4)] /\
  isinstance (VStr "a") (Cls c_int) = Return false /\
  accepts area_rect [VStr "a"; VInt 4] [] = false /\
  dispatch_from 0 [area_rect; area_circle] "area" [VStr "a"; VInt 4] [] =
    dispatch_from 1 [area_circle] "area" [VStr "a"; VInt 4] [].
Proof.
  destruct (concrete_type_only_instances c_int (VStr "a") area_rect
              [VStr "a"; VInt 4] [] [("w", VStr "a"); ("h", VInt 4)] "w"
              (positional "w" (Cls c_int)) eq_refl
              ltac:(by left) eq_refl eq_refl)
    as [_ Hfalse].
  destruct (Hfalse eq_refl) as (_ & Hacc & Hnext & _).
  refine (conj eq_refl (conj eq_refl (conj Hacc _))).
  apply Hnext.
Defined.

Lemma no_candidate_dispatch_failure_witness :
  let s := with_group "area" [area_rect; area_circle] in
  heap s !! 0 =
    Some {| name := "area"; register := true;
            _fns := [area_rect; area_circle] |} /\
  dict_in "self" [] = false /\
  __call__ invoke 0 [VStr "a"] [] s =
    (Raise (Exn TypeError
       "no matching overload for function `area` and call signature"), s) /\
  invoked (snd (__call__ invoke 0 [VStr "a"] [] s)) = [].
Proof.
  intros s. split; [reflexivity|]. split; [reflexivity|].
  apply (no_candidate_dispatch_failure invoke s 0 _ [VStr "a"] [] eq_refl
           eq_refl).
  intros fn Hin.
  apply elem_of_cons in Hin as [->|Hin].
  - exists (signature area_rect). split; [reflexivity|].
    left. eexists. reflexivity.
  - apply list_elem_of_singleton in Hin as ->.
    exists (signature area_circle). split; [reflexivity|].
    right. reflexivity.
Defined.

Lemma candidate_outcome_unchanged_witness :
  let s := with_group "check" [check] in
  heap s !! 0 = Some {| name := "check"; register := true; _fns := [check] |}
  /\ dict_in "self" [] = false
  /\ fst (__call__ invoke 0 [] [] s) = fst (invoke check [] [] (world s))
  /\ invoked (snd (__call__ invoke 0 [] [] s)) = [(Def check, [], [])]
  /\ fst (invoke check [] [] (world s)) =
       Raise (Exn TypeError
         "no matching overload for function `check` and call signature").
Proof.
  intros s.
  destruct (candidate_outcome_unchanged invoke s 0 _ [] [] eq_refl eq_refl)
    as [(i & fn & Hd & Hi & _ & Hout & _ & Hlog)|(Hd & _)].
  - intros fn Hin. apply list_elem_of_singleton in Hin as ->.
    eexists. reflexivity.
  - injection Hd as <-. injection Hi as <-.
    exact (conj eq_refl (conj eq_refl (conj Hout (conj Hlog eq_refl)))).
  - discriminate Hd.
Defined.

Lemma overload_rejects_other_arguments_witness :
  callable (VInt 3) = false /\ VInt 3 <> VNone /\
  isinstance (VInt 3) (Cls c_str) = Return false /\
  overload (VInt 3) start =
    (Raise (Exn TypeError "expected function name as argument"), start).
Proof.
  refine (conj eq_refl (conj _ (conj eq_refl _))); [discriminate|].
  apply overload_rejects_other_arguments; [reflexivity|discriminate|reflexivity].
Defined.

Lemma second_definition_extends_group_witness :
  let g := {| name := "area"; register := true; _fns := [area_rect] |} in
  frames after_first = [{[ "area" := VGroup 0 ]}] /\
  heap after_first !! 0 = Some g /\
  exists s', overload (VFunction area_circle) after_first =
               (Return (Dispatcher (VGroup 0)), s') /\
    heap s' = [{| name := "area"; register := true;
                  _fns := [area_rect; area_circle] |}] /\
    frames s' = [{[ "area" := VGroup 0 ]}].
Proof.
  intros g.
  destruct (second_definition_extends_group after_first
              ({[ "area" := VGroup 0 ]} : gmap string value) [] "area" 0 g
              area_circle eq_refl (lookup_singleton_eq _ _) eq_refl)
    as [Hbare _].
  destruct (Hbare eq_refl) as (s' & Hov & Hheap & _ & _ & _ & Hfr & _).
  refine (conj eq_refl (conj eq_refl _)).
  exists s'. refine (conj Hov (conj Hheap _)).
  rewrite Hfr. reflexivity.
Defined.

Lemma add_appends_returns_self_witness :
  let g := {| name := "area"; register := true; _fns := [area_rect] |} in
  heap after_first !! 0 = Some g /\
  registry_consistent after_first /\
  publication_key area_rect = Return ("shapes", "area", 3%Z) /\
  exists s', add 0 area_rect after_first = (Return 0, s') /\
    heap s' !! 0 = Some {| name := "area"; register := true;
                           _fns := [area_rect; area_rect] |} /\
    exists reg, current_registry s' = Some reg /\
      registry_getitem "shapes" "area" 3 reg = Some area_rect.
Proof.
  intros g.
  assert (Hwf : registry_consistent after_first).
  { intros _. eexists. reflexivity. }
  destruct (add_appends_returns_self invoke after_first 0 g area_rect
              eq_refl) as [(r & s' & Hadd & Hheap & _ & _ & Hon & _) _].
  destruct (Hon eq_refl "shapes" "area" 3%Z eq_refl) as [-> Hreg].
  refine (conj eq_refl (conj Hwf (conj eq_refl _))).
  exists s'. exact (conj Hadd (conj Hheap (Hreg Hwf))).
Defined.

Lemma call_twice_same_choice_witness :
  let s := with_group "area" [area_rect; area_circle] in
  let g := {| name := "area"; register := true;
              _fns := [area_rect; area_circle] |} in
  heap s !! 0 = Some g /\
  selected g [VInt 3; VInt 4] [] = Some 0 /\
  fst (__call__ invoke 0 [VInt 3; VInt 4] [] s) =
  fst (__call__ invoke 0 [VInt 3; VInt 4] []
         (snd (__call__ invoke 0 [VInt 3; VInt 4] [] s))).
Proof.
  intros s g.
  destruct (call_twice_same_choice invoke s 0 g [VInt 3; VInt 4] [] eq_refl)
    as (_ & _ & _ & _ & Hpure).
  refine (conj eq_refl (conj eq_refl _)).
  apply Hpure. intros i fn Hd Hi.
  injection Hd as <-. injection Hi as <-.
  intros args kwargs w w'. reflexivity.
Defined.

(** ** Where the specification and the code part ways *)


(** C3, as written, fails.  No candidate of [area] binds [area(self=1)],
    and the call does not end in the dispatch failure: the host refuses the
    keyword [self] when it binds the arguments of [__call__], with a
    [TypeError] that does not name the group.  Nor does a call of a group
    that holds the class [int]: [inspect.signature] finds no signature for
    it and its [ValueError] leaves the scan. *)
Lemma keyword_self_is_no_dispatch_failure :
  let s := with_group "area" [area_rect; area_circle] in
  let g := {| name := "area"; register := true;
              _fns := [area_rect; area_circle] |} in
  let kwargs := [("self", VInt 1)] in
  let s_int := with_group "area" [Other builtin_int] in
  heap s !! 0 = Some g /\
  verdict area_rect [] kwargs = Return false /\
  verdict area_circle [] kwargs = Return false /\
  __call__ invoke 0 [] kwargs s =
    (Raise (Exn TypeError
       "FunctionOverload.__call__() got multiple values for argument 'self'"),
     s) /\
  fst (__call__ invoke 0 [] kwargs s) <> Raise (no_match "area") /\
  __call__ invoke 0 [VStr "a"] [] s_int =
    (Raise (Exn ValueError
       "no signature found for builtin type <class 'int'>"), s_int) /\
  ~ (forall args kw,
       (forall fn, fn ∈ _fns g -> verdict fn args kw <> Return true) ->
       fst (__call__ invoke 0 args kw s) = Raise (no_match "area")).
Proof.
  intros s g kwargs s_int. split_and!; try reflexivity.
  - discriminate.
  - intros H. specialize (H [] kwargs).
    assert (Hno : forall fn, fn ∈ _fns g -> verdict fn [] kwargs <> Return true).
    { intros fn Hin. apply elem_of_cons in Hin as [->|Hin]; [discriminate|].
      apply list_elem_of_singleton in Hin as ->. discriminate. }
    specialize (H Hno). discriminate H.
Qed.

(** C4, as written, fails.  The failure of the scan is an ordinary
    [TypeError]; the body of a chosen candidate can raise the very same
    exception.  [check(1)] exhausts the candidates of the group, [check()]
    runs the one candidate, whose body raises: the caller receives equal
    exceptions, of equal class, from both. *)
Lemma dispatch_failure_not_distinct :
  let s := with_group "check" [check] in
  let g := {| name := "check"; register := true; _fns := [check] |} in
  let e := Exn TypeError
             "no matching overload for function `check` and call signature" in
  heap s !! 0 = Some g /\
  _dispatch g [VInt 1] [] = Raise e /\
  fst (__call__ invoke 0 [VInt 1] [] s) = Raise e /\
  _dispatch g [] [] = Return 0 /\
  fst (invoke check [] [] (world s)) = Raise e /\
  fst (__call__ invoke 0 [] [] s) = Raise e /\
  ~ (forall args args' e1 e2,
       _dispatch g args [] = Raise e1 ->
       _dispatch g args' [] = Return 0 ->
       fst (invoke check args' [] (world s)) = Raise e2 ->
       exn_type e1 <> exn_type e2).
Proof.
  intros s g e. split_and!; try reflexivity.
  intros H. by apply (H [VInt 1] [] e e).
Qed.

(** C7, as written, fails.  [None] is neither a string nor callable, and
    [overload(None)] raises nothing: it returns the decorator, as
    [overload()] does. *)
Lemma overload_None_returns_decorator :
  callable VNone = false /\
  isinstance VNone (Cls c_str) = Return false /\
  overload VNone start = (Return (Decorator None), start) /\
  ~ (forall arg : value,
       callable arg = false -> isinstance arg (Cls c_str) = Return false ->
       exists e, fst (overload arg start) = Raise e).
Proof.
  split_and!; try reflexivity.
  intros H. destruct (H VNone eq_refl eq_refl) as [e He]. discriminate He.
Qed.

(** C9, as written, fails.  [len] is callable and has no [__code__]: with
    [register] set, [add(len)] appends it, settles the ledger, leaves the
    entries that the lookups of [len.__module__] and [len.__qualname__]
    made there, and raises [AttributeError] instead of returning the
    group. *)
Lemma add_of_builtin_raises_after_append :
  let s := with_group "area" [area_rect] in
  let g := {| name := "area"; register := true; _fns := [area_rect] |} in
  heap s !! 0 = Some g /\
  callable (VCallable builtin_len) = true /\
  fst (add 0 (Other builtin_len) s) =
    Raise (Exn AttributeError
      "'builtin_function_or_method' object has no attribute '__code__'") /\
  heap (snd (add 0 (Other builtin_len) s)) !! 0 =
    Some {| name := "area"; register := true;
            _fns := [Def area_rect; Other builtin_len] |} /\
  _overload_registry (snd (add 0 (Other builtin_len) s)) = Some typing_table /\
  (exists reg by_name,
     typing_overload_registry (snd (add 0 (Other builtin_len) s)) = Some reg /\
     reg !! "builtins" = Some by_name /\ by_name !! "len" = Some ∅) /\
  ~ (forall fn, fst (add 0 fn s) = Return 0).
Proof.
  intros s g. split_and!; try reflexivity.
  - eexists _, _. split_and!; reflexivity.
  - intros H. specialize (H (Other builtin_len)). discriminate H.
Qed.

(** ** Callables that are no functions

    [overload(len)] makes the group [len], appends the builtin to it and
    fails at line 54, before line 136 binds the name: the group stays on
    the heap, unbound.  A [FunctionOverload] handed to [overload] has no
    [__name__], and nothing happens. *)
Example overload_of_builtin :
  fst (overload (VCallable builtin_len) start) =
    Raise (Exn AttributeError
      "'builtin_function_or_method' object has no attribute '__code__'") /\
  heap (snd (overload (VCallable builtin_len) start)) =
    [{| name := "len"; register := true; _fns := [Other builtin_len] |}] /\
  frames (snd (overload (VCallable builtin_len) start)) = [∅].
Proof. split_and!; reflexivity. Qed.

Example overload_of_group :
  overload (VGroup 0) after_first =
    (Raise (Exn AttributeError
       "'FunctionOverload' object has no attribute '__name__'"),
     after_first).
Proof. reflexivity. Qed.

(** ** A function frame

    Inside a function, with [area] one of its local variables and not yet
    bound, the store of line 136 is lost: two definitions under
    [@overload('area')] make two groups of one candidate each. *)
Example function_frame_makes_two_groups :
  let s := {| heap := []; frames := [∅]; fast_locals := [Some ["area"]];
              _overload_registry := None; typing_overload_registry := Some ∅;
              own_registry := ∅; warnings := []; world := 0;
              invoked := [] |} in
  let s1 := snd (decorator (Some "area") area_rect 1 s) in
  let s2 := snd (decorator (Some "area") area_circle 1 s1) in
  frames s2 = [∅] /\
  heap s2 = [{| name := "area"; register := true; _fns := [area_rect] |};
             {| name := "area"; register := true; _fns := [area_circle] |}].
Proof. split; reflexivity. Qed.

(** ** Instances of the further properties *)

Lemma failed_registration_changes_nothing_witness :
  fst (overload (VFunction area_rect) shadowed) =
    Raise (Exn AttributeError "'int' object has no attribute 'add'") /\
  snd (overload (VFunction area_rect) shadowed) = shadowed.
Proof.
  split; [reflexivity|].
  destruct (failed_registration_changes_nothing shadowed) as [Hov _].
  apply (Hov (VFunction area_rect)
           (Exn AttributeError "'int' object has no attribute 'add'")).
  - intros c Hc. discriminate Hc.
  - reflexivity.
Defined.

Lemma registration_touches_one_binding_witness :
  let s' := snd (decorator (Some "circle") area_circle 1 shadowed) in
  frames shadowed !! 0 = Some {[ "area" := VInt 3; "x" := VInt 1 ]} /\
  length (frames s') = 1 /\
  exists f', frames s' !! 0 = Some f' /\
    f' !! "x" = Some (VInt 1) /\ f' !! "area" = Some (VInt 3).
Proof.
  intros s'.
  destruct (registration_touches_one_binding (Some "circle") area_circle 0
              shadowed) as [Hlen Hkeep].
  destruct (Hkeep 0 {[ "area" := VInt 3; "x" := VInt 1 ]} eq_refl)
    as (f' & Hf' & Hk).
  refine (conj eq_refl (conj Hlen _)).
  exists f'. refine (conj Hf' (conj _ _)).
  - rewrite (Hk "x"); [reflexivity|]. right. discriminate.
  - rewrite (Hk "area"); [reflexivity|]. right. discriminate.
Defined.

Lemma add_publishes_one_entry_witness :
  let s' := snd (add 0 area_circle after_first) in
  heap after_first !! 0 =
    Some {| name := "area"; register := true; _fns := [area_rect] |} /\
  registry_consistent after_first /\
  registry_getitem "shapes" "area" 7 (ledger s') = Some area_circle /\
  registry_getitem "shapes" "area" 3 (ledger s') = Some area_rect.
Proof.
  intros s'.
  assert (Hwf : registry_consistent after_first).
  { intros _. eexists. reflexivity. }
  destruct (add_publishes_one_entry after_first 0 _ area_circle eq_refl Hwf)
    as (Hnew & _ & Hold & _).
  refine (conj eq_refl (conj Hwf (conj (Hnew eq_refl) _))).
  subst s'. rewrite (Hold "shapes" "area" 3%Z); [reflexivity|]. discriminate.
Defined.

Lemma registry_settled_once_witness :
  exists r s1,
    _get_overload_registry bare_host = (Return r, s1) /\
    _get_overload_registry s1 = (Return r, s1) /\
    r = own_table /\ length (warnings s1) = 1.
Proof.
  destruct (registry_settled_once bare_host)
    as (r & s1 & H1 & H2 & _ & _ & _ & Hnew & _).
  destruct (Hnew eq_refl) as (Hiff & _ & Hown).
  assert (Hr : r = own_table).
  { destruct r; [|reflexivity].
    destruct (proj1 Hiff eq_refl) as [t Ht]. discriminate Ht. }
  exists r, s1. refine (conj H1 (conj H2 (conj Hr _))).
  destruct (Hown Hr) as [_ Hlen]. exact Hlen.
Defined.

Lemma ledger_choice_is_final_witness :
  let ops := [op_add 0 area_rect; op_call 0 [VInt 3; VInt 4] [];
              op_add 0 area_circle; op_get_overload_registry] in
  let s' := foldl (perform invoke) bare_host ops in
  _overload_registry bare_host = None /\
  (warnings s' = [] \/
   (_overload_registry s' = Some own_table /\
    exists w, warnings s' = [] ++ [w])).
Proof.
  intros ops s'. split; [reflexivity|].
  destruct (ledger_choice_is_final invoke ops bare_host) as (_ & Hnew & _).
  exact (Hnew eq_refl).
Defined.

Lemma new_group_rejects_every_call_witness :
  let s1 := snd (__init__ "area" true start) in
  __call__ invoke 0 [VInt 3; VInt 4] [] s1 =
    (Raise (Exn TypeError
       "no matching overload for function `area` and call signature"), s1) /\
  __call__ invoke 0 [] [("self", VInt 1)] s1 =
    (Raise (Exn TypeError
       "FunctionOverload.__call__() got multiple values for argument 'self'"),
     s1).
Proof.
  intros s1. split.
  - destruct (new_group_rejects_every_call invoke "area" true
                [VInt 3; VInt 4] [] start) as (_ & _ & _ & Hcall).
    exact Hcall.
  - destruct (new_group_rejects_every_call invoke "area" true
                [] [("self", VInt 1)] start) as (_ & _ & _ & Hcall).
    exact Hcall.
Defined.

Lemma first_definition_new_group_witness :
  frames start = [∅] /\ fast_locals start !! 0 = Some None /\
  exists s', overload (VFunction area_rect) start =
               (Return (Dispatcher (VGroup 0)), s') /\
    heap s' = [{| name := "area"; register := true; _fns := [area_rect] |}] /\
    frames s' = [{[ "area" := VGroup 0 ]}] /\
    registry_getitem "shapes" "area" 3 (ledger s') = Some area_rect.
Proof.
  refine (conj eq_refl (conj eq_refl _)).
  destruct (first_definition_new_group None area_rect ∅ [] start eq_refl
              eq_refl (lookup_empty _)) as (s' & _ & Hov & Hheap & Hfr & Hled).
  exists s'. refine (conj (Hov eq_refl) (conj Hheap (conj Hfr _))).
  rewrite Hled.
  - apply registry_getitem_setitem.
  - intros _. eexists. reflexivity.
Defined.

Lemma definitions_collect_in_order_witness :
  let s' := define_all [greet_plain; greet_loud; greet_plain] start in
  frames start = [∅] /\ fast_locals start !! 0 = Some None /\
  heap s' = [{| name := "greet"; register := true;
                _fns := [greet_plain; greet_loud; greet_plain] |}] /\
  frames s' = [{[ "greet" := VGroup 0 ]}].
Proof.
  intros s'.
  destruct (definitions_collect_in_order greet_plain [greet_loud; greet_plain]
              ∅ [] start eq_refl eq_refl (lookup_empty _)) as [Hheap Hfr].
  - intros fn' Hin.
    apply elem_of_cons in Hin as [->|Hin]; [reflexivity|].
    apply list_elem_of_singleton in Hin as ->. reflexivity.
  - refine (conj eq_refl (conj eq_refl (conj Hheap _))). exact Hfr.
Defined.

Lemma add_keeps_earlier_matches_witness :
  let g := {| name := "area"; register := true; _fns := [area_rect] |} in
  _dispatch g [VFloat 5 (-1)] [] = Raise (no_match "area") /\
  _dispatch (appended g area_circle) [VFloat 5 (-1)] [] = Return 1 /\
  _dispatch (appended g area_circle) [VInt 3; VInt 4] [] = Return 0 /\
  _dispatch (appended g area_circle) [] [("self", VInt 1)] =
    _dispatch g [] [("self", VInt 1)].
Proof.
  intros g. refine (conj eq_refl (conj _ (conj _ _))).
  - rewrite (add_keeps_earlier_matches g area_circle [VFloat 5 (-1)] []).
    reflexivity.
  - rewrite (add_keeps_earlier_matches g area_circle [VInt 3; VInt 4] []).
    reflexivity.
  - rewrite (add_keeps_earlier_matches g area_circle [] [("self", VInt 1)]).
    reflexivity.
Defined.

Lemma duplicate_is_never_selected_witness :
  let g := {| name := "greet"; register := true;
              _fns := [greet_plain; greet_plain] |} in
  0 < 1 /\ _fns g !! 0 = Some (Def greet_plain) /\
  _fns g !! 1 = Some (Def greet_plain) /\
  _dispatch g [VStr "x"] [] <> Return 1.
Proof.
  intros g. refine (conj _ (conj eq_refl (conj eq_refl _))); [lia|].
  apply (duplicate_is_never_selected g [VStr "x"] [] 0 1 greet_plain);
    [lia|reflexivity|reflexivity].
Defined.

Lemma default_is_type_checked_witness :
  bind (signature opt) [] [] = Return [] /\
  isinstance VNone (Cls c_int) = Return false /\
  accepts opt [] [] = false /\
  accepts opt [VInt 1] [] = true.
Proof.
  refine (conj eq_refl (conj eq_refl (conj _ eq_refl))).
  apply (default_is_type_checked opt [] [] []
           (Param "x" POSITIONAL_OR_KEYWORD (Some VNone) (Cls c_int))
           VNone c_int); reflexivity.
Defined.

Lemma refused_annotation_never_selected_witness :
  parameters_getitem (signature show_any) "x" =
    Return (positional "x" Any) /\
  accepts show_any [VStr "a"] [] = false /\
  accepts show_any [] [("x", VInt 1)] = false.
Proof.
  refine (conj eq_refl (conj _ _)).
  - apply (refused_annotation_never_selected show_any "x"
             (positional "x" Any) [VStr "a"] [] eq_refl).
    left. reflexivity.
  - apply (refused_annotation_never_selected show_any "x"
             (positional "x" Any) [] [("x", VInt 1)] eq_refl).
    left. reflexivity.
Defined.

